(** * bbf burn-in: a shallow embedding of [src/bbf_burnin.cpp]

    The burn-in engine walks a block device in batches, overwrites each batch
    with four fixed patterns, writes a buffer back and records the batches
    whose last write failed.  The C++ code mutates a device, a scratch buffer,
    a vector of bad blocks and some process-wide signal state; here all of it
    is threaded explicitly through a small state monad.  A ghost log of the
    device calls and progress snapshots is kept next to the world so that
    properties about "which I/O was issued" can be stated.

    Not modelled: the text written to [std::cout] other than the
    [Info::print] snapshots, and the clock values those snapshots carry. *)

From Stdlib Require Import Ascii String ZArith List Bool Lia.
From Stdlib.Strings Require Import Byte.
Import ListNotations.
Open Scope Z_scope.

(** ** Machine integers and errno *)

(** [uint64_t] / [size_t] arithmetic wraps modulo 2^64. *)
Definition u64 (x : Z) : Z := x mod 2 ^ 64.

(** Conversion of a 64-bit unsigned value to [int] (the [retries] argument of
    [write_read_compare] is an [int] fed from a [uint64_t]). *)
Definition int_of_u64 (x : Z) : Z :=
  let y := x mod 2 ^ 32 in if y <? 2 ^ 31 then y else y - 2 ^ 32.

(** <errno.h> on Linux. *)
Definition EIO : Z := 5.
Definition EINVAL : Z := 22.

(** ** <string.h> on buffers *)

Definition byte_val (b : byte) : Z := Z.of_N (Byte.to_N b).

(** [memcmp(a,b,n)]: zero when the first [n] bytes agree, otherwise the
    difference of the first bytes that differ (as [unsigned char]). *)
Fixpoint memcmp (a b : list byte) (n : nat) : Z :=
  match n, a, b with
  | S n', x :: a', y :: b' =>
      if Byte.eqb x y then memcmp a' b' n' else byte_val x - byte_val y
  | _, _, _ => 0
  end.

(** [memset(buf,c,n)]. *)
Definition memset (buf : list byte) (c : byte) (n : nat) : list byte :=
  repeat c n ++ skipn n buf.

(** ** The collaborators *)

(** The [BlkDev] object of [blkdev.hpp] (absent from the sources at hand) is
    an interface: the geometry is fixed once the device is open, and a read or
    a write returns an [int] status (negative errno on failure).  A read gets
    the caller's buffer and may leave anything in it. *)
Class BlkDev (W : Type) : Type := {
  logical_block_count : Z;
  logical_block_size : Z;
  block_stepping : Z;
  dev_read : Z -> Z -> list byte -> Z -> W -> (Z * list byte) * W;
  dev_write : Z -> Z -> list byte -> Z -> W -> Z * W;
  dev_open_rdwr : string -> bool -> W -> Z * W;
  dev_close : W -> Z * W
}.

Inductive RWType : Type := ATA | OS.

(** The process environment: [signals::], [BadBlockFile::], [captcha::]. *)
Class Env (W : Type) : Type := {
  signaled_to_exit : W -> bool;
  signals_dec_SIGALRM : W -> bool * W;
  signals_alarm : Z -> W -> W;
  set_rw : RWType -> W -> W;
  captcha_calculate : W -> string;
  BadBlockFile_filepath : W -> string;
  BadBlockFile_read : string -> list Z -> W -> (Z * list Z) * W;
  BadBlockFile_write : string -> list Z -> W -> Z * W
}.

(** Ghost log: every device call with its status, and every [Info::print]. *)
Inductive Event : Type :=
| EvRead (block count : Z) (rv : Z)
| EvWrite (block count : Z) (buf : list byte) (rv : Z)
| EvPrint (start_block end_block block : Z) (badblocks : list Z).

(** ** The state monad *)

Section Monad.
Context {W : Type}.

Record St : Type := mkSt { world : W; log : list Event }.

Definition M (A : Type) : Type := St -> A * St.

Definition ret {A} (a : A) : M A := fun s => (a, s).

Definition bind {A B} (m : M A) (k : A -> M B) : M B :=
  fun s => let (a, s') := m s in k a s'.

Definition emit (e : Event) : M unit :=
  fun s => (tt, mkSt (world s) (log s ++ [e])).

Definition lift {A} (f : W -> A * W) : M A :=
  fun s => let (a, w) := f (world s) in (a, mkSt w (log s)).

Definition peek {A} (f : W -> A) : M A := fun s => (f (world s), s).

Definition poke (f : W -> W) : M unit :=
  fun s => (tt, mkSt (f (world s)) (log s)).

(** The log of [st'] continues the log of [st]. *)
Definition extends (st st' : St) : Prop :=
  exists evs, log st' = log st ++ evs.
End Monad.

Arguments St W : clear implicits.
Arguments M W A : clear implicits.

Notation "x <- m ;; k" := (bind m (fun x => k))
  (at level 61, m at next level, right associativity).
Notation "' pat <- m ;; k" := (bind m (fun x => match x with pat => k end))
  (at level 61, pat pattern, m at next level, right associativity).
Notation "m ;;; k" := (bind m (fun _ => k))
  (at level 61, right associativity).

(** ** Options and AppError *)

(** The fields of [Options] that the burn-in reads. *)
Record Options : Type := {
  opt_device : string;
  opt_force : bool;
  opt_captcha : string;
  opt_input_file : string;
  opt_output_file : string;
  opt_rwtype : RWType;
  opt_retries : Z;
  opt_stepping : Z;
  opt_start_block : Z;
  opt_end_block : Z;
  opt_max_errors : Z
}.

Module AppError.
(** Modelled from the spec: [errors.hpp] is absent; the result type is the
    tagged value built by the factory functions the burn-in calls, and
    [succeeded] holds of the value built by [success()] only. *)
Inductive t : Type :=
| success
| runtime (errno : Z) (msg : string)
| opening_device (errno : Z) (device : string)
| captcha (given expected : string)
| writing_badblocks_file (errno : Z) (path : string)
| closing_device (errno : Z) (device : string).

Definition succeeded (e : t) : bool :=
  match e with success => true | _ => false end.
End AppError.

Module math.
(** Modelled from the spec: [math.hpp] is absent and the spec does not
    describe it; [round_down] and [round_up] are taken to be what their
    names say, rounding an unsigned 64-bit number to a multiple with the
    usual integer-division formulas. *)
Definition round_down (number multiple : Z) : Z :=
  u64 ((number / multiple) * multiple).

Definition round_up (number multiple : Z) : Z :=
  u64 ((u64 (number + multiple - 1) / multiple) * multiple).
End math.

(** ** The burn-in engine *)

Section Burnin.
Context {W : Type} {D : BlkDev W} {E : Env W}.

(** [blkdev.read] and [blkdev.write], logged. *)
Definition blkdev_read (block count : Z) (buf : list byte) (buflen : Z)
  : M W (Z * list byte) :=
  '(rv, buf') <- lift (dev_read block count buf buflen) ;;
  emit (EvRead block count rv) ;;;
  ret (rv, buf').

Definition blkdev_write (block count : Z) (buf : list byte) (buflen : Z)
  : M W Z :=
  rv <- lift (dev_write block count buf buflen) ;;
  emit (EvWrite block count buf rv) ;;;
  ret rv.

Definition Info_print (start_block end_block block : Z)
           (badblocks : list Z) : M W unit :=
  emit (EvPrint start_block end_block block badblocks).

(** [trim_stepping], lines 35-49. *)
Definition trim_stepping (block_ stepping_ : Z) : Z :=
  let block_count := logical_block_count in
  if block_ >? block_count then 0
  else Z.min (block_count - block_) stepping_.

(** The retry idiom
    [rv = -1; for(uint64_t i = 0; (i <= retries) && (rv < 0); i++) rv = op;]
    makes at most [retries+1] attempts ([retries] read as a [uint64_t]) and
    stops at the first non-negative status.  The number of attempts left is
    the structural argument; for [retries = 2^64-1] (an [int] of -1), where
    the C++ counter wraps and the loop has no bound, the model stops after
    2^64 attempts: statements that assert a return take [retries] in the
    range of a non-negative [int], where the two agree. *)
Definition attempts (retries : Z) : nat := S (Z.to_nat (u64 retries)).

Fixpoint retry_write (n : nat) (rv : Z) (block count : Z)
         (buf : list byte) (buflen : Z) : M W Z :=
  match n with
  | O => ret rv
  | S n' =>
      if rv <? 0 then
        rv' <- blkdev_write block count buf buflen ;;
        retry_write n' rv' block count buf buflen
      else ret rv
  end.

Fixpoint retry_read (n : nat) (rv : Z) (block count : Z)
         (buf : list byte) (buflen : Z) : M W (Z * list byte) :=
  match n with
  | O => ret (rv, buf)
  | S n' =>
      if rv <? 0 then
        '(rv', buf') <- blkdev_read block count buf buflen ;;
        retry_read n' rv' block count buf' buflen
      else ret (rv, buf)
  end.

(** [write_read_compare], lines 51-82.  Returns the status and the scratch
    buffer [buf_], which the read-back fills. *)
Definition write_read_compare (stepping_ block : Z) (buf_ : list byte)
           (buflen_ : Z) (retries : Z) (write_buf : list byte)
  : M W (Z * list byte) :=
  rv <- retry_write (attempts retries) (-1) block stepping_ write_buf buflen_ ;;
  if rv <? 0 then ret (rv, buf_)
  else
    '(rv, buf_) <- retry_read (attempts retries) (-1) block stepping_ buf_ buflen_ ;;
    if rv <? 0 then ret (rv, buf_)
    else
      let rv := memcmp write_buf buf_ (Z.to_nat buflen_) in
      if negb (rv =? 0) then ret (- EIO, buf_)
      else ret (0, buf_).

(** The loop over the patterns, lines 103-104: each status overwrites the
    previous one. *)
Fixpoint test_patterns (patterns_ : list (list byte)) (rv : Z)
         (stepping_ block : Z) (buf_ : list byte) (buflen_ : Z)
         (retries : Z) : M W (Z * list byte) :=
  match patterns_ with
  | [] => ret (rv, buf_)
  | p :: rest =>
      '(rv', buf') <- write_read_compare stepping_ block buf_ buflen_
                        (int_of_u64 retries) p ;;
      test_patterns rest rv' stepping_ block buf' buflen_ retries
  end.

(** [burn_block], lines 84-111; [retries] is a [uint64_t] here.  The first
    two steps (lines 96-104: read the batch, zero the buffer when the read
    failed, run the patterns) are named apart from the final write
    (lines 106-110) so that statements can speak of the state between. *)
Definition preserve_and_test (stepping_ block : Z) (buf_ : list byte)
           (buflen_ : Z) (retries : Z) (patterns_ : list (list byte))
  : M W (Z * list byte) :=
  '(rv, buf_) <- retry_read (attempts retries) (-1) block stepping_ buf_ buflen_ ;;
  let buf_ := if rv <? 0 then memset buf_ x00 (Z.to_nat buflen_) else buf_ in
  test_patterns patterns_ rv stepping_ block buf_ buflen_ retries.

Definition burn_block (stepping_ block : Z) (buf_ : list byte)
           (buflen_ : Z) (retries : Z) (patterns_ : list (list byte))
  : M W (Z * list byte) :=
  '(_, buf_) <- preserve_and_test stepping_ block buf_ buflen_ retries patterns_ ;;
  rv <- retry_write (attempts retries) (-1) block stepping_ buf_ buflen_ ;;
  ret (rv, buf_).

(** *** The loop, lines 113-181 *)

(** The variables the loop mutates: the cursor, the last status, the
    scratch buffer and the vector of bad blocks. *)
Record LoopVars : Type := mkLV {
  lv_block : Z;
  lv_rv : Z;
  lv_buf : list byte;
  lv_badblocks : list Z
}.

Inductive Flow : Type :=
| Continue (v : LoopVars)
| Break (v : LoopVars).

Definition flow_vars (r : Flow) : LoopVars :=
  match r with Continue v | Break v => v end.

(** [for(uint64_t i = 0; i < stepping; i++) badblocks.push_back(block+i);]
    with [n] the number of iterations left. *)
Fixpoint push_range (n : nat) (i : Z) (block : Z) (badblocks : list Z)
  : list Z :=
  match n with
  | O => badblocks
  | S n' => push_range n' (u64 (i + 1)) block (badblocks ++ [u64 (block + i)])
  end.

Definition make_patterns (buflen_ : Z) : list (list byte) :=
  [ repeat x00 (Z.to_nat buflen_);
    repeat x55 (Z.to_nat buflen_);
    repeat xaa (Z.to_nat buflen_);
    repeat xff (Z.to_nat buflen_) ].

Section Loop.
Variables (start_block end_block stepping_ buflen_ max_errors_ retries : Z).
Variable (patterns : list (list byte)).

(** The periodic report, lines 148-154. *)
Definition poll_timer (v : LoopVars) : M W unit :=
  fired <- lift signals_dec_SIGALRM ;;
  if fired then
    poke (signals_alarm 1) ;;;
    Info_print start_block end_block (lv_block v) (lv_badblocks v)
  else ret tt.

(** One pass through the body of the [while], lines 145-173. *)
Definition loop_body (v : LoopVars) : M W Flow :=
  stop <- peek signaled_to_exit ;;
  if stop then ret (Break v)
  else
    poll_timer v ;;;
    let stepping := trim_stepping (lv_block v) stepping_ in
    '(rv, buf) <- burn_block stepping_ (lv_block v) (lv_buf v) buflen_
                    (u64 retries) patterns ;;
    let block := u64 (lv_block v + stepping) in
    if rv >=? 0 then ret (Continue (mkLV block rv buf (lv_badblocks v)))
    else if rv =? - EINVAL then ret (Break (mkLV block rv buf (lv_badblocks v)))
    else
      Info_print start_block end_block block (lv_badblocks v) ;;;
      let badblocks :=
        push_range (Z.to_nat stepping) 0 block (lv_badblocks v) in
      if Z.of_nat (length badblocks) >? max_errors_
      then ret (Break (mkLV block rv buf badblocks))
      else ret (Continue (mkLV block rv buf badblocks)).

(** [while(block < end_block) { ... }]; [None] when the fuel runs out
    before the loop is left. *)
Fixpoint while_loop (fuel : nat) (v : LoopVars) : M W (option LoopVars) :=
  if lv_block v <? end_block then
    match fuel with
    | O => ret None
    | S fuel' =>
        r <- loop_body v ;;
        match r with
        | Continue v' => while_loop fuel' v'
        | Break v' => ret (Some v')
        end
    end
  else ret (Some v).
End Loop.

(** [burnin_loop].  [rv] is declared without an initial value: [rv0] stands
    for whatever it holds when the body never assigns it.  The result
    carries the returned status and the updated vector. *)
Definition burnin_loop (fuel : nat) (start_block end_block stepping_ : Z)
           (buf_ : list byte) (buflen_ : Z) (badblocks : list Z)
           (max_errors_ retries rv0 : Z) : M W (option LoopVars) :=
  let patterns := make_patterns buflen_ in
  Info_print start_block end_block start_block badblocks ;;;
  r <- while_loop start_block end_block stepping_ buflen_ max_errors_
         retries patterns fuel (mkLV start_block rv0 buf_ badblocks) ;;
  match r with
  | None => ret None
  | Some v =>
      Info_print start_block end_block (lv_block v) (lv_badblocks v) ;;;
      ret (Some v)
  end.

(** *** [burnin(blkdev,opts,badblocks)], lines 183-248 *)

Definition burnin_stepping (opts : Options) : Z :=
  if opt_stepping opts =? 0 then block_stepping else opt_stepping opts.

Definition burnin_start_block (opts : Options) : Z :=
  math.round_down (opt_start_block opts) (burnin_stepping opts).

Definition burnin_end_block (opts : Options) : Z :=
  let end_block := Z.min (opt_end_block opts) logical_block_count in
  let end_block := math.round_up end_block (burnin_stepping opts) in
  Z.min end_block logical_block_count.

(** [buf0] is the content of the freshly allocated [new char[buflen]]. *)
Definition burnin_dev (fuel : nat) (opts : Options) (badblocks : list Z)
           (buf0 : list byte) (rv0 : Z)
  : M W (option (AppError.t * list Z)) :=
  let retries := opt_retries opts in
  let stepping := burnin_stepping opts in
  let buflen := u64 (stepping * logical_block_size) in
  let start_block := burnin_start_block opts in
  let end_block := burnin_end_block opts in
  poke (signals_alarm 1) ;;;
  r <- burnin_loop fuel start_block end_block stepping buf0 buflen
         badblocks (opt_max_errors opts) retries rv0 ;;
  match r with
  | None => ret None
  | Some v =>
      if lv_rv v <? 0
      then ret (Some (AppError.runtime (- lv_rv v)
                        "error when performing burnin"%string,
                      lv_badblocks v))
      else ret (Some (AppError.success, lv_badblocks v))
  end.

(** *** [burnin(opts)], lines 266-316 *)

Definition string_empty (s : string) : bool :=
  match s with EmptyString => true | _ => false end.

(** Lines 305-315: save the list, close the device, and fold the two
    statuses into the result of the run. *)
Definition save_and_close (output_file device : string) (err : AppError.t)
           (badblocks : list Z) : M W AppError.t :=
  rv <- lift (BadBlockFile_write output_file badblocks) ;;
  let err :=
    if (rv <? 0) && AppError.succeeded err
    then AppError.writing_badblocks_file (- rv) output_file
    else err in
  rv <- lift dev_close ;;
  let err :=
    if (rv <? 0) && AppError.succeeded err
    then AppError.closing_device (- rv) device
    else err in
  ret err.

Definition burnin (fuel : nat) (opts : Options) (buf0 : list byte) (rv0 : Z)
  : M W (option AppError.t) :=
  let input_file := opt_input_file opts in
  let output_file := opt_output_file opts in
  rv <- lift (dev_open_rdwr (opt_device opts) (negb (opt_force opts))) ;;
  if rv <? 0 then ret (Some (AppError.opening_device (- rv) (opt_device opts)))
  else
    captcha <- peek captcha_calculate ;;
    if negb (String.eqb (opt_captcha opts) captcha)
    then ret (Some (AppError.captcha (opt_captcha opts) captcha))
    else
      default_path <- peek BadBlockFile_filepath ;;
      let output_file :=
        if string_empty output_file then default_path else output_file in
      let input_file :=
        if string_empty input_file then output_file else input_file in
      '(_, badblocks) <- lift (BadBlockFile_read input_file []) ;;
      poke (set_rw (opt_rwtype opts)) ;;;
      r <- burnin_dev fuel opts badblocks buf0 rv0 ;;
      match r with
      | None => ret None
      | Some (err, badblocks) =>
          err <- save_and_close output_file (opt_device opts) err badblocks ;;
          ret (Some err)
      end.

End Burnin.

Arguments trim_stepping W {D} block_ stepping_.
Arguments burnin_stepping W {D} opts.
Arguments burnin_start_block W {D} opts.
Arguments burnin_end_block W {D} opts.

(** ** A simulated device

    A disk of one-byte blocks held in memory, with injectable faults, used to
    run the engine on concrete scenarios. *)
Module Sim.

Record World : Type := mkWorld {
  disk : list byte;          (* one byte per logical block *)
  wfail : list (Z * Z);      (* start block |-> status of every write there *)
  rgarble : bool;            (* reads succeed but deliver 0x42 bytes *)
  stop : bool;               (* a termination signal is pending *)
  bbfile : option (list Z);  (* the persisted bad-block list, if any *)
  save_status : Z            (* status of BadBlockFile::write *)
}.

Fixpoint lookup (k : Z) (l : list (Z * Z)) : option Z :=
  match l with
  | [] => None
  | (k', v) :: l' => if k =? k' then Some v else lookup k l'
  end.

Definition sim_read (count_total : Z) (block count : Z) (buf : list byte)
           (buflen : Z) (w : World) : (Z * list byte) * World :=
  if (block + count >? count_total) || (block <? 0) then ((- EINVAL, buf), w)
  else
    let data :=
      if rgarble w then repeat "B"%byte (Z.to_nat count)
      else firstn (Z.to_nat count) (skipn (Z.to_nat block) (disk w)) in
    ((0, data ++ skipn (length data) buf), w).

Definition sim_write (count_total : Z) (block count : Z) (buf : list byte)
           (buflen : Z) (w : World) : Z * World :=
  match lookup block (wfail w) with
  | Some status => (status, w)
  | None =>
      if (block + count >? count_total) || (block <? 0) then (- EINVAL, w)
      else
        (0, mkWorld (firstn (Z.to_nat block) (disk w)
                       ++ firstn (Z.to_nat count) buf
                       ++ skipn (Z.to_nat (block + count)) (disk w))
                    (wfail w) (rgarble w) (stop w) (bbfile w)
                    (save_status w))
  end.

(** A device of [count_total] blocks of one byte, default batch [stepping]. *)
Definition dev (count_total stepping : Z) : BlkDev World := {|
  logical_block_count := count_total;
  logical_block_size := 1;
  block_stepping := stepping;
  dev_read := sim_read count_total;
  dev_write := sim_write count_total;
  dev_open_rdwr := fun _ _ w => (0, w);
  dev_close := fun w => (0, w)
|}.

Definition env : Env World := {|
  signaled_to_exit := stop;
  signals_dec_SIGALRM := fun w => (false, w);
  signals_alarm := fun _ w => w;
  set_rw := fun _ w => w;
  captcha_calculate := fun _ => "sim"%string;
  BadBlockFile_filepath := fun _ => "badblocks.sim"%string;
  BadBlockFile_read := fun _ bb w =>
    match bbfile w with
    | Some l => ((0, bb ++ l), w)
    | None => ((-2, bb), w)
    end;
  BadBlockFile_write := fun _ bb w =>
    if save_status w <? 0 then (save_status w, w)
    else (0, mkWorld (disk w) (wfail w) (rgarble w) (stop w) (Some bb)
                     (save_status w))
|}.

(** A healthy disk of [n] blocks, every block holding 0x11. *)
Definition healthy (n : nat) : World :=
  mkWorld (repeat x11 n) [] false false None 0.

Definition start (w : World) : St World := mkSt w [].

(** [n, n+1, ..., n+len-1]. *)
Definition range (n : Z) (len : nat) : list Z :=
  map (fun k => n + Z.of_nat k) (seq 0 len).

(** The writes and reads of a log. *)
Definition is_io (e : Event) : bool :=
  match e with EvPrint _ _ _ _ => false | _ => true end.

Definition io_extent (e : Event) : option (Z * Z) :=
  match e with
  | EvRead b c _ | EvWrite b c _ _ => Some (b, c)
  | EvPrint _ _ _ _ => None
  end.

Definition options (start_block end_block stepping retries max_errors : Z)
  : Options := {|
  opt_device := "/dev/sim";
  opt_force := false;
  opt_captcha := "sim";
  opt_input_file := "";
  opt_output_file := "out.bbf";
  opt_rwtype := OS;
  opt_retries := retries;
  opt_stepping := stepping;
  opt_start_block := start_block;
  opt_end_block := end_block;
  opt_max_errors := max_errors
|}.

End Sim.

(** ** Scenarios

    The faulty disks the claims are run on.  Blocks hold 0x11 initially. *)

(** A disk whose reads succeed but deliver other bytes than were written. *)
Definition garbling_disk : Sim.World :=
  Sim.mkWorld (repeat x11 4) [] true false None 0.

(** A disk on which every write at block 0 fails with [-EIO]. *)
Definition unwritable_disk : Sim.World :=
  Sim.mkWorld (repeat x11 4) [(0, - EIO)] false false None 0.

(** The disk of scenario B: 1000 blocks, every write that starts at block
    300 fails. *)
Definition scenario_B_disk : Sim.World :=
  Sim.mkWorld (repeat x11 1000) [(300, - EIO)] false false None 0.

(** The event succeeded, or is a write that starts at [block]. *)
Definition event_ok_or_at (block : Z) (e : Event) : bool :=
  match e with
  | EvRead _ _ rv => 0 <=? rv
  | EvWrite b _ _ rv => (0 <=? rv) || (b =? block)
  | EvPrint _ _ _ _ => true
  end.

(** A disk on which every write at block 0 fails with [-EINVAL]. *)
Definition einval_disk : Sim.World :=
  Sim.mkWorld (repeat x11 8) [(0, - EINVAL)] false false None 0.

(** Writes fail at blocks 300 and 500; [imported] is the persisted list. *)
Definition limit_disk (imported : list Z) : Sim.World :=
  Sim.mkWorld (repeat x11 1000) [(300, - EIO); (500, - EIO)] false false
              (Some imported) 0.

(** A healthy disk of 1000 blocks whose bad-block file holds [imported]. *)
Definition prefilled_disk (imported : list Z) : Sim.World :=
  Sim.mkWorld (repeat x11 1000) [] false false (Some imported) 0.

(** A healthy disk whose bad-block file cannot be written. *)
Definition unsavable_disk : Sim.World :=
  Sim.mkWorld (repeat x11 8) [] false false None (- EIO).

(** ** Command-line options, [src/options.cpp]

    [Options] above holds the fields the burn-in reads; the parser also
    keeps the instruction and the quiet counter. *)
Module Opts.

Inductive Instruction : Type :=
| _INVALID
| INFO
| CAPTCHA
| SCAN
| FIX
| BURNIN
| FIND_FILES
| DUMP_FILES
| FILE_BLOCKS
| WRITE_UNCORRECTABLE.

Record t : Type := mk {
  instruction : Instruction;
  quiet : Z;
  base : Options
}.

(** Modelled from the spec: [errors.hpp] is absent; these are the values of
    [AppError] that the parser builds, [succeeded] holding of [success()]
    only. *)
Inductive ArgError : Type :=
| success
| argument_invalid (msg : string)
| argument_required (what : string).

Definition succeeded (e : ArgError) : bool :=
  match e with success => true | _ => false end.

(** <limits.h> and <errno.h> on 64-bit Linux. *)
Definition LONG_MAX : Z := 2 ^ 63 - 1.
Definition ULLONG_MAX : Z := 2 ^ 64 - 1.
Definition ERANGE : Z := 34.

(** Assignments to single fields. *)
Definition set_base (f : Options -> Options) (o : t) : t :=
  mk (instruction o) (quiet o) (f (base o)).

Definition with_retries (v : Z) (b : Options) : Options :=
  Build_Options (opt_device b) (opt_force b) (opt_captcha b)
                (opt_input_file b) (opt_output_file b) (opt_rwtype b)
                v (opt_stepping b) (opt_start_block b) (opt_end_block b)
                (opt_max_errors b).

Definition with_start_block (v : Z) (b : Options) : Options :=
  Build_Options (opt_device b) (opt_force b) (opt_captcha b)
                (opt_input_file b) (opt_output_file b) (opt_rwtype b)
                (opt_retries b) (opt_stepping b) v (opt_end_block b)
                (opt_max_errors b).

Definition with_end_block (v : Z) (b : Options) : Options :=
  Build_Options (opt_device b) (opt_force b) (opt_captcha b)
                (opt_input_file b) (opt_output_file b) (opt_rwtype b)
                (opt_retries b) (opt_stepping b) (opt_start_block b) v
                (opt_max_errors b).

Definition with_output_file (v : string) (b : Options) : Options :=
  Build_Options (opt_device b) (opt_force b) (opt_captcha b)
                (opt_input_file b) v (opt_rwtype b)
                (opt_retries b) (opt_stepping b) (opt_start_block b)
                (opt_end_block b) (opt_max_errors b).

Definition with_input_file (v : string) (b : Options) : Options :=
  Build_Options (opt_device b) (opt_force b) (opt_captcha b)
                v (opt_output_file b) (opt_rwtype b)
                (opt_retries b) (opt_stepping b) (opt_start_block b)
                (opt_end_block b) (opt_max_errors b).

Definition with_captcha (v : string) (b : Options) : Options :=
  Build_Options (opt_device b) (opt_force b) v
                (opt_input_file b) (opt_output_file b) (opt_rwtype b)
                (opt_retries b) (opt_stepping b) (opt_start_block b)
                (opt_end_block b) (opt_max_errors b).

Definition with_rwtype (v : RWType) (b : Options) : Options :=
  Build_Options (opt_device b) (opt_force b) (opt_captcha b)
                (opt_input_file b) (opt_output_file b) v
                (opt_retries b) (opt_stepping b) (opt_start_block b)
                (opt_end_block b) (opt_max_errors b).

Definition with_device (v : string) (b : Options) : Options :=
  Build_Options v (opt_force b) (opt_captcha b)
                (opt_input_file b) (opt_output_file b) (opt_rwtype b)
                (opt_retries b) (opt_stepping b) (opt_start_block b)
                (opt_end_block b) (opt_max_errors b).

(** [Options::instr_from_string], lines 123-146. *)
Definition instr_from_string (str : string) : Instruction :=
  if String.eqb str "info" then INFO
  else if String.eqb str "captcha" then CAPTCHA
  else if String.eqb str "scan" then SCAN
  else if String.eqb str "fix" then FIX
  else if String.eqb str "burnin" then BURNIN
  else if String.eqb str "find-files" then FIND_FILES
  else if String.eqb str "dump-files" then DUMP_FILES
  else if String.eqb str "file-blocks" then FILE_BLOCKS
  else if String.eqb str "write-uncorrectable" then WRITE_UNCORRECTABLE
  else _INVALID.

(** [Options::validate], lines 199-233.  The [switch] falls through from
    [BURNIN] into [SCAN] and from [FIX]/[WRITE_UNCORRECTABLE] into
    [FIND_FILES]; every case that does not return ends at the range check. *)
Definition validate (o : t) : ArgError :=
  let b := base o in
  let range_check :=
    if opt_start_block b >=? opt_end_block b
    then argument_invalid "start block >= end block"
    else success in
  let scan_case :=
    if string_empty (opt_output_file b)
    then argument_required "bad block output file"
    else range_check in
  let find_files_case :=
    if string_empty (opt_input_file b)
    then argument_required "bad block input file"
    else range_check in
  match instruction o with
  | _INVALID => argument_invalid "instruction is invalid"
  | BURNIN =>
      if string_empty (opt_captcha b) then argument_required "captcha"
      else scan_case
  | SCAN => scan_case
  | FIX | WRITE_UNCORRECTABLE =>
      if string_empty (opt_captcha b) then argument_required "captcha"
      else find_files_case
  | FIND_FILES => find_files_case
  | DUMP_FILES | INFO | CAPTCHA => range_check
  | FILE_BLOCKS => range_check
  end.

(** What each instruction requires, to state what [validate] accepts. *)
Definition needs_captcha (i : Instruction) : bool :=
  match i with BURNIN | FIX | WRITE_UNCORRECTABLE => true | _ => false end.

Definition needs_output_file (i : Instruction) : bool :=
  match i with BURNIN | SCAN => true | _ => false end.

Definition needs_input_file (i : Instruction) : bool :=
  match i with FIX | WRITE_UNCORRECTABLE | FIND_FILES => true | _ => false end.

Section Parser.
(** The C library as the parser uses it: [strtol] and [strtoull] in base 10,
    each giving its value and the [errno] it leaves ([errno] is cleared
    before the call); [to_retries] is the conversion of the [long] result to
    the type of the [retries] field, which [options.hpp] (absent) declares. *)
Variable strtol : string -> Z * Z.
Variable strtoull : string -> Z * Z.
Variable to_retries : Z -> Z.

(** [Options::process_arg], lines 68-121.  [optarg] and [argv[optind-1]] are
    the globals of [getopt] at the time of the call; [usage] only prints. *)
Definition process_arg (argv_prev optarg : string) (opt : ascii) (o : t)
  : ArgError * t :=
  if Ascii.eqb opt "q" then (success, mk (instruction o) (quiet o + 1) (base o))
  else if Ascii.eqb opt "r" then
    let '(v, errno) := strtol optarg in
    let retries := to_retries v in
    let o := set_base (with_retries retries) o in
    if ((errno =? ERANGE) && (retries =? LONG_MAX)) || (retries <? 1)
    then (argument_invalid "retries invalid", o)
    else (success, o)
  else if Ascii.eqb opt "s" then
    let '(v, errno) := strtoull optarg in
    let o := set_base (with_start_block v) o in
    if (v =? ULLONG_MAX) && (errno =? ERANGE)
    then (argument_invalid "start block value is invalid", o)
    else (success, o)
  else if Ascii.eqb opt "e" then
    let '(v, errno) := strtoull optarg in
    let o := set_base (with_end_block v) o in
    if (v =? ULLONG_MAX) && (errno =? ERANGE)
    then (argument_invalid "end block value is invalid", o)
    else (success, o)
  else if Ascii.eqb opt "o" then (success, set_base (with_output_file optarg) o)
  else if Ascii.eqb opt "i" then (success, set_base (with_input_file optarg) o)
  else if Ascii.eqb opt "c" then (success, set_base (with_captcha optarg) o)
  else if Ascii.eqb opt "t" then
    if String.eqb optarg "os" then (success, set_base (with_rwtype OS) o)
    else if String.eqb optarg "ata" then (success, set_base (with_rwtype ATA) o)
    else (argument_invalid "valid rwtype values are 'os' or 'ata'", o)
  else if Ascii.eqb opt "h" then (success, o)
  else if Ascii.eqb opt "?" then
    (argument_invalid (argv_prev ++ " is unknown"), o)
  else (success, o).

(** One return of [getopt_long] other than -1: the option character, and
    the values of [optarg] and [argv[optind-1]] it leaves. *)
Record Parsed : Type := mkParsed {
  p_opt : ascii;
  p_optarg : string;
  p_argv_prev : string
}.

(** The [while(true)] of [parse], lines 174-186, over the successive returns
    of [getopt_long]: it stops at the first argument that is refused. *)
Fixpoint process_args (args : list Parsed) (o : t) : ArgError * t :=
  match args with
  | [] => (success, o)
  | a :: rest =>
      let '(error, o') :=
        process_arg (p_argv_prev a) (p_optarg a) (p_opt a) o in
      if negb (succeeded error) then (error, o')
      else process_args rest o'
  end.

(** [Options::parse], lines 148-197.  [getopt_long] is given by what it
    returns: [args] are its returns before -1, [optind] is the index it
    ends with, [argv] is the argument vector as it leaves it.  An index past
    the vector reads as the empty string. *)
Definition parse (argc : Z) (argv : list string) (args : list Parsed)
           (optind : Z) (o : t) : ArgError * t :=
  if argc =? 1 then (success, o)
  else
    let '(error, o) := process_args args o in
    if negb (succeeded error) then (error, o)
    else if argc =? optind then (argument_required "instruction", o)
    else if argc =? optind + 1 then (argument_required "target", o)
    else
      let instr :=
        instr_from_string (nth (Z.to_nat optind) argv ""%string) in
      let device := nth (Z.to_nat (optind + 1)) argv ""%string in
      let o := mk instr (quiet o) (with_device device (base o)) in
      (validate o, o).
End Parser.

End Opts.

(** ** Further devices and environments for the properties below *)

(** The environment [E] with another default path for the bad-block file. *)
Definition with_filepath {W : Type} (E : Env W) (path : W -> string) : Env W :=
  {| signaled_to_exit := signaled_to_exit;
     signals_dec_SIGALRM := signals_dec_SIGALRM;
     signals_alarm := signals_alarm;
     set_rw := set_rw;
     captcha_calculate := captcha_calculate;
     BadBlockFile_filepath := path;
     BadBlockFile_read := BadBlockFile_read;
     BadBlockFile_write := BadBlockFile_write |}.

(** A device of [count_total] blocks that accepts every write without
    keeping it and fails every read. *)
Definition sink_dev (count_total stepping : Z) : BlkDev unit := {|
  logical_block_count := count_total;
  logical_block_size := 1;
  block_stepping := stepping;
  dev_read := fun _ _ buf _ w => ((- EIO, buf), w);
  dev_write := fun _ _ _ _ w => (0, w);
  dev_open_rdwr := fun _ _ w => (0, w);
  dev_close := fun w => (0, w)
|}.

(** An environment without signals and without a bad-block file. *)
Definition quiet_env : Env unit := {|
  signaled_to_exit := fun _ => false;
  signals_dec_SIGALRM := fun w => (false, w);
  signals_alarm := fun _ w => w;
  set_rw := fun _ w => w;
  captcha_calculate := fun _ => "sink"%string;
  BadBlockFile_filepath := fun _ => "sink.bbf"%string;
  BadBlockFile_read := fun _ bb w => ((-2, bb), w);
  BadBlockFile_write := fun _ _ w => (0, w)
|}.

(** A device call of the log addresses [count] blocks at [block]. *)
Definition call_at (block count : Z) (e : Event) : Prop :=
  match e with
  | EvRead b c _ | EvWrite b c _ _ => b = block /\ c = count
  | EvPrint _ _ _ _ => False
  end.

(** A device call of [count] blocks that starts in [[lo, hi)], or a
    snapshot. *)
Definition call_within (lo hi count : Z) (e : Event) : Prop :=
  match e with
  | EvRead b c _ | EvWrite b c _ _ => lo <= b < hi /\ c = count
  | EvPrint _ _ _ _ => True
  end.

Definition is_print (e : Event) : bool :=
  match e with EvPrint _ _ _ _ => true | _ => false end.

(** A device call that starts at a multiple of [stepping], or a snapshot. *)
Definition call_aligned (stepping : Z) (e : Event) : Prop :=
  match e with
  | EvRead b _ _ | EvWrite b _ _ _ => exists k, 0 <= k /\ b = k * stepping
  | EvPrint _ _ _ _ => True
  end.

(** The fields that no command-line option sets agree in [o] and [o']. *)
Definition untouched (o o' : Opts.t) : Prop :=
  Opts.instruction o' = Opts.instruction o /\
  opt_device (Opts.base o') = opt_device (Opts.base o) /\
  opt_force (Opts.base o') = opt_force (Opts.base o) /\
  opt_stepping (Opts.base o') = opt_stepping (Opts.base o) /\
  opt_max_errors (Opts.base o') = opt_max_errors (Opts.base o).

(** A [strtol]/[strtoull] that knows the numerals "3", "100" and "200". *)
Definition toy_strtol (s : string) : Z * Z :=
  if String.eqb s "3" then (3, 0)
  else if String.eqb s "100" then (100, 0)
  else if String.eqb s "200" then (200, 0)
  else (0, 0).

(** The cursor is at a multiple of the stepping, or the loop is over. *)
Definition on_grid (end_block stepping_ : Z) (v : LoopVars) : Prop :=
  (exists k, 0 <= k /\ lv_block v = k * stepping_) \/
  end_block <= lv_block v.

(** From [st] to [st'] the log grew by at most [n] events, all in [P]. *)
Definition appends {W : Type} (P : Event -> Prop) (n : nat) (st st' : St W)
  : Prop :=
  exists evs,
    log st' = log st ++ evs /\ Forall P evs /\ (length evs <= n)%nat.

(** * Properties *)

(** ** Lists of statuses *)

Lemma last_cons_default (r d : Z) (l : list Z) :
  last (r :: l) d = last l r.
Proof.
  revert r d; induction l as [|a l IH]; intros r d; [reflexivity|].
  change (last (r :: a :: l) d) with (last (a :: l) d).
  now rewrite !IH.
Qed.


(** ** The stepping calculator *)

Section Stepping.
Context {W : Type} {D : BlkDev W}.

Lemma trim_stepping_inside (p s : Z) :
  p < logical_block_count -> 0 < s -> 0 < trim_stepping W p s.
Proof.
  intros Hp Hs; unfold trim_stepping.
  destruct (p >? logical_block_count) eqn:E; lia.
Qed.

Lemma trim_stepping_le (p s : Z) :
  p <= logical_block_count -> 0 <= s ->
  0 <= trim_stepping W p s <= logical_block_count - p.
Proof.
  intros Hp Hs; unfold trim_stepping.
  destruct (p >? logical_block_count) eqn:E; lia.
Qed.

(** C6.  For a position [p] and a requested stepping [s] (unsigned, so
    [0 <= s]): at or beyond the block count the calculator returns 0;
    before it, it returns [min s (count - p)]; hence when [p + s] passes
    the block count it returns [count - p]. *)
Theorem trim_stepping_spec (p s : Z) :
  0 <= s ->
  (logical_block_count <= p -> trim_stepping W p s = 0) /\
  (p < logical_block_count ->
   trim_stepping W p s = Z.min s (logical_block_count - p)) /\
  (p < logical_block_count -> p + s > logical_block_count ->
   trim_stepping W p s = logical_block_count - p).
Proof.
  intros Hs; unfold trim_stepping.
  destruct (p >? logical_block_count) eqn:E; repeat split; intros; lia.
Qed.
End Stepping.

(** ** The retry loops and the step tester *)

Section StepTester.
Context {W : Type} {D : BlkDev W} {E : Env W}.

Lemma blkdev_write_log block count buf buflen (st : St W) :
  exists r w,
    blkdev_write block count buf buflen st
    = (r, mkSt w (log st ++ [EvWrite block count buf r])).
Proof.
  unfold blkdev_write, bind, lift, emit, ret; simpl.
  destruct (dev_write block count buf buflen (world st)) as [r w].
  now exists r, w.
Qed.

(** What a run of the write-retry loop leaves in the log: one write event
    per attempt, the result being the status of the last attempt; the
    result is negative exactly when all [n] attempts were made and failed. *)
Lemma retry_write_log (n : nat) block count buf buflen :
  forall (rv0 : Z) (st : St W) rv st',
    retry_write n rv0 block count buf buflen st = (rv, st') ->
    exists statuses,
      log st' = log st ++ map (EvWrite block count buf) statuses /\
      rv = last statuses rv0 /\
      (length statuses <= n)%nat /\
      (rv0 < 0 -> n <> O -> statuses <> []) /\
      (rv < 0 -> rv0 < 0 /\ length statuses = n
                 /\ Forall (fun r => r < 0) statuses).
Proof.
  induction n as [|n IH]; intros rv0 st rv st' Hrun; simpl in Hrun.
  - inversion Hrun; subst. exists []; simpl.
    rewrite app_nil_r. repeat split; auto; try lia; congruence.
  - destruct (rv0 <? 0) eqn:Hneg.
    + unfold bind in Hrun.
      destruct (blkdev_write_log block count buf buflen st) as (r & w & Hw).
      rewrite Hw in Hrun. apply IH in Hrun.
      destruct Hrun as (sts & Hlog & Hlast & Hlen & _ & Hall).
      simpl in Hlog. apply Z.ltb_lt in Hneg.
      exists (r :: sts). split; [|split; [|split; [|split]]].
      * rewrite Hlog, <- app_assoc; reflexivity.
      * now rewrite last_cons_default.
      * simpl; lia.
      * discriminate.
      * intros Hrv. destruct (Hall Hrv) as (Hr & Hn & Hf).
        split; [assumption|]. split; [simpl; now rewrite Hn|].
        now constructor.
    + inversion Hrun; subst. exists []; simpl.
      rewrite app_nil_r. apply Z.ltb_ge in Hneg.
      repeat split; auto; try lia.
Qed.

Lemma blkdev_read_log block count buf buflen (st : St W) :
  exists r buf' w,
    blkdev_read block count buf buflen st
    = ((r, buf'), mkSt w (log st ++ [EvRead block count r])).
Proof.
  unfold blkdev_read, bind, lift, emit, ret; simpl.
  destruct (dev_read block count buf buflen (world st)) as [[r buf'] w].
  now exists r, buf', w.
Qed.

Lemma extends_refl (st : St W) : extends st st.
Proof. exists []; now rewrite app_nil_r. Qed.

Lemma extends_trans (st1 st2 st3 : St W) :
  extends st1 st2 -> extends st2 st3 -> extends st1 st3.
Proof.
  intros [e1 H1] [e2 H2]. exists (e1 ++ e2).
  now rewrite H2, H1, app_assoc.
Qed.

Lemma retry_write_extends n block count buf buflen rv0 (st : St W) :
  extends st (snd (retry_write n rv0 block count buf buflen st)).
Proof.
  destruct (retry_write n rv0 block count buf buflen st) as [rv st'] eqn:Hr.
  destruct (retry_write_log _ _ _ _ _ _ _ _ _ Hr) as (sts & Hlog & _).
  now exists (map (EvWrite block count buf) sts).
Qed.

Lemma retry_read_extends n block count buflen :
  forall rv0 buf (st : St W),
    extends st (snd (retry_read n rv0 block count buf buflen st)).
Proof.
  induction n as [|n IH]; intros rv0 buf st; simpl.
  - apply extends_refl.
  - destruct (rv0 <? 0); [|apply extends_refl].
    unfold bind.
    destruct (blkdev_read_log block count buf buflen st)
      as (r & buf' & w & ->).
    eapply extends_trans; [|apply IH].
    now exists [EvRead block count r].
Qed.

Lemma write_read_compare_extends stepping_ block buf buflen retries p
      (st : St W) :
  extends st
          (snd (write_read_compare stepping_ block buf buflen retries p st)).
Proof.
  unfold write_read_compare, bind, ret.
  pose proof (retry_write_extends (attempts retries) block stepping_ p buflen
                                  (-1) st) as Hw.
  destruct (retry_write _ _ _ _ _ _ st) as [rv st1].
  destruct (rv <? 0); [exact Hw|].
  pose proof (retry_read_extends (attempts retries) block stepping_ buflen
                                 (-1) buf st1) as Hr.
  destruct (retry_read _ _ _ _ _ _ st1) as [[rv' buf'] st2].
  assert (Hx : extends st st2) by (eapply extends_trans; eassumption).
  destruct (rv' <? 0); [exact Hx|].
  now destruct (negb _).
Qed.

Lemma test_patterns_extends patterns_ stepping_ block buflen retries :
  forall rv buf (st : St W),
    extends st
            (snd (test_patterns patterns_ rv stepping_ block buf buflen
                                retries st)).
Proof.
  induction patterns_ as [|p rest IH]; intros rv buf st; simpl.
  - apply extends_refl.
  - unfold bind.
    pose proof (write_read_compare_extends stepping_ block buf buflen
                  (int_of_u64 retries) p st) as Hw.
    destruct (write_read_compare _ _ _ _ _ _ st) as [[rv' buf'] st1].
    eapply extends_trans; [exact Hw | apply IH].
Qed.

(** The first device call of [burn_block] is a read of [stepping_] blocks at
    [block], whatever the device. *)
Lemma burn_block_first_call stepping_ block buf buflen retries patterns_
      (st : St W) :
  exists r rest,
    log (snd (burn_block stepping_ block buf buflen retries patterns_ st))
    = log st ++ EvRead block stepping_ r :: rest.
Proof.
  unfold burn_block, preserve_and_test, attempts, bind, ret.
  cbn [retry_read Z.ltb Z.compare]. unfold bind.
  destruct (blkdev_read_log block stepping_ buf buflen st)
    as (r & buf1 & w & ->).
  set (st1 := mkSt w (log st ++ [EvRead block stepping_ r])).
  pose proof (retry_read_extends (Z.to_nat (u64 retries)) block stepping_
                                 buflen r buf1 st1) as H1.
  destruct (retry_read _ _ _ _ _ _ st1) as [[rv2 buf2] st2].
  set (buf3 := if rv2 <? 0 then _ else _).
  pose proof (test_patterns_extends patterns_ stepping_ block buflen retries
                                    rv2 buf3 st2) as H2.
  destruct (test_patterns _ _ _ _ _ _ _ st2) as [[rv4 buf4] st4].
  pose proof (retry_write_extends (S (Z.to_nat (u64 retries))) block stepping_
                                  buf4 buflen (-1) st4) as H3.
  destruct (retry_write _ _ _ _ _ _ st4) as [rv5 st5].
  destruct (extends_trans _ _ _ (extends_trans _ _ _ H1 H2) H3) as [evs Hevs].
  exists r, evs. cbn [snd fst] in *. rewrite Hevs. unfold st1; cbn [log].
  now rewrite <- app_assoc.
Qed.


Lemma burn_block_unfold stepping_ block buf_ buflen_ retries patterns_ st :
  burn_block stepping_ block buf_ buflen_ retries patterns_ st
  = let '((_, buf2), st2) :=
        preserve_and_test stepping_ block buf_ buflen_ retries patterns_ st in
    let '(rv, st3) :=
        retry_write (attempts retries) (-1) block stepping_ buf2 buflen_ st2 in
    ((rv, buf2), st3).
Proof.
  unfold burn_block, bind, ret.
  destruct (preserve_and_test _ _ _ _ _ _ st) as [[rv2 buf2] st2].
  now destruct (retry_write _ _ _ _ _ _ st2).
Qed.
End StepTester.

(** ** The loop *)

Ltac pow64 := change (2 ^ 64) with 18446744073709551616 in *.

Lemma u64_small (x : Z) : 0 <= x < 2 ^ 64 -> u64 x = x.
Proof. intros Hx; unfold u64; now apply Z.mod_small. Qed.

Lemma push_range_length (n : nat) :
  forall i block bb, length (push_range n i block bb) = (length bb + n)%nat.
Proof.
  induction n as [|n IH]; intros i block bb; simpl.
  - now rewrite Nat.add_0_r.
  - rewrite IH, length_app; simpl; lia.
Qed.

(** The pushed addresses, when the counter does not wrap. *)
Lemma push_range_spec (n : nat) :
  forall i block bb,
    0 <= i -> i + Z.of_nat n < 2 ^ 64 ->
    push_range n i block bb
    = bb ++ map (fun k => u64 (block + (i + Z.of_nat k))) (seq 0 n).
Proof.
  induction n as [|n IH]; intros i block bb Hi Hn.
  - simpl. now rewrite app_nil_r.
  - cbn [push_range]. rewrite u64_small by (pow64; lia).
    rewrite IH by (pow64; lia). rewrite <- app_assoc. f_equal.
    cbn [seq map app]. rewrite Z.add_0_r. f_equal.
    rewrite <- seq_shift, map_map.
    apply map_ext; intros k. f_equal. lia.
Qed.

Section LoopFacts.
Context {W : Type} {D : BlkDev W} {E : Env W}.
Variables (start_block end_block stepping_ buflen_ max_errors_ retries : Z).
Variable (patterns : list (list byte)).

Local Abbreviation body :=
  (loop_body start_block end_block stepping_ buflen_ max_errors_ retries
             patterns).
Local Abbreviation loop :=
  (while_loop start_block end_block stepping_ buflen_ max_errors_ retries
              patterns).

Lemma while_loop_done fuel v (st : St W) :
  (lv_block v <? end_block) = false -> loop fuel v st = (Some v, st).
Proof. intros Hc; destruct fuel; simpl; now rewrite Hc. Qed.

Lemma while_loop_step fuel v (st : St W) :
  (lv_block v <? end_block) = true ->
  loop (S fuel) v st
  = let (r, st') := body v st in
    match r with
    | Continue v' => loop fuel v' st'
    | Break v' => (Some v', st')
    end.
Proof.
  intros Hc; simpl; rewrite Hc; unfold bind.
  destruct (body v st) as [[v'|v'] st']; reflexivity.
Qed.

Lemma loop_body_stop v (st : St W) :
  signaled_to_exit (world st) = true -> body v st = (Break v, st).
Proof. intros Hs; unfold loop_body, bind, peek, ret; now rewrite Hs. Qed.

(** The body once the batch was tested: the three ways out. *)
Lemma loop_body_run v (st st2 : St W) rv buf :
  signaled_to_exit (world st) = false ->
  burn_block stepping_ (lv_block v) (lv_buf v) buflen_ (u64 retries) patterns
             (snd (poll_timer start_block end_block v st))
  = ((rv, buf), st2) ->
  body v st
  = let stepping := trim_stepping W (lv_block v) stepping_ in
    let block := u64 (lv_block v + stepping) in
    if rv >=? 0 then (Continue (mkLV block rv buf (lv_badblocks v)), st2)
    else if rv =? - EINVAL
    then (Break (mkLV block rv buf (lv_badblocks v)), st2)
    else
      let badblocks :=
        push_range (Z.to_nat stepping) 0 block (lv_badblocks v) in
      let st3 :=
        mkSt (world st2)
             (log st2 ++ [EvPrint start_block end_block block
                                  (lv_badblocks v)]) in
      if Z.of_nat (length badblocks) >? max_errors_
      then (Break (mkLV block rv buf badblocks), st3)
      else (Continue (mkLV block rv buf badblocks), st3).
Proof.
  intros Hs Hb; unfold loop_body, bind, peek, ret; rewrite Hs.
  destruct (poll_timer start_block end_block v st) as [u st1].
  simpl in Hb; rewrite Hb; cbv zeta.
  destruct (rv >=? 0); [reflexivity|].
  destruct (rv =? - EINVAL); [reflexivity|].
  unfold Info_print, emit.
  now destruct (Z.of_nat _ >? max_errors_).
Qed.

(** A pass that is not cut short by a signal moves the cursor by the
    trimmed stepping. *)
Lemma loop_body_cursor v (st : St W) :
  signaled_to_exit (world st) = false ->
  lv_block (flow_vars (fst (body v st)))
  = u64 (lv_block v + trim_stepping W (lv_block v) stepping_).
Proof.
  intros Hs.
  destruct (burn_block stepping_ (lv_block v) (lv_buf v) buflen_
              (u64 retries) patterns
              (snd (poll_timer start_block end_block v st)))
    as [[rv buf] st2] eqn:Hb.
  rewrite (loop_body_run v st st2 rv buf Hs Hb); cbv zeta.
  destruct (rv >=? 0); [reflexivity|].
  destruct (rv =? - EINVAL); [reflexivity|].
  now destruct (Z.of_nat _ >? max_errors_).
Qed.

(** The addresses a bad batch at [b] of trimmed size [s] adds to the list
    are [b+s, ..., b+2s-1]: they are computed from the cursor after it was
    advanced. *)
Lemma bad_batch_pushes_following_addresses v (st st2 : St W) rv buf :
  signaled_to_exit (world st) = false ->
  burn_block stepping_ (lv_block v) (lv_buf v) buflen_ (u64 retries) patterns
             (snd (poll_timer start_block end_block v st))
  = ((rv, buf), st2) ->
  rv < 0 -> rv <> - EINVAL ->
  let s := trim_stepping W (lv_block v) stepping_ in
  0 <= lv_block v -> 0 <= s -> lv_block v + 2 * s < 2 ^ 64 ->
  lv_badblocks (flow_vars (fst (body v st)))
  = lv_badblocks v
      ++ map (fun k => lv_block v + s + Z.of_nat k) (seq 0 (Z.to_nat s)).
Proof.
  intros Hs Hb Hneg Hinv s Hv Hs0 Hfit.
  rewrite (loop_body_run v st st2 rv buf Hs Hb); cbv zeta. fold s.
  destruct (rv >=? 0) eqn:Hge; [apply Z.geb_le in Hge; lia|].
  destruct (rv =? - EINVAL) eqn:Heq; [apply Z.eqb_eq in Heq; contradiction|].
  assert (Hpush :
            push_range (Z.to_nat s) 0 (u64 (lv_block v + s)) (lv_badblocks v)
            = lv_badblocks v
                ++ map (fun k => lv_block v + s + Z.of_nat k)
                       (seq 0 (Z.to_nat s))).
  { rewrite push_range_spec by (pow64; lia). f_equal.
    apply map_ext_in; intros k Hk. apply in_seq in Hk.
    rewrite (u64_small (lv_block v + s)) by (pow64; lia).
    rewrite u64_small by (pow64; lia). lia. }
  destruct (Z.of_nat _ >? max_errors_); cbn [fst flow_vars lv_badblocks];
    exact Hpush.
Qed.

(** A pass that is not cut short by a signal reads [stepping_] blocks at the
    cursor, trimmed or not. *)
Lemma loop_body_reads_untrimmed v (st : St W) :
  signaled_to_exit (world st) = false ->
  exists pre r rest,
    log (snd (body v st)) = pre ++ EvRead (lv_block v) stepping_ r :: rest.
Proof.
  intros Hs.
  destruct (burn_block stepping_ (lv_block v) (lv_buf v) buflen_
              (u64 retries) patterns
              (snd (poll_timer start_block end_block v st)))
    as [[rv buf] st2] eqn:Hb.
  destruct (burn_block_first_call stepping_ (lv_block v) (lv_buf v) buflen_
              (u64 retries) patterns
              (snd (poll_timer start_block end_block v st)))
    as (r & rest & Hlog).
  rewrite Hb in Hlog; cbn [snd] in Hlog.
  rewrite (loop_body_run v st st2 rv buf Hs Hb); cbv zeta.
  destruct (rv >=? 0); [now eauto|].
  destruct (rv =? - EINVAL); [now eauto|].
  exists (log (snd (poll_timer start_block end_block v st))), r,
    (rest ++ [EvPrint start_block end_block
                      (u64 (lv_block v
                            + trim_stepping W (lv_block v) stepping_))
                      (lv_badblocks v)]).
  destruct (Z.of_nat _ >? max_errors_); cbn [snd log];
    now rewrite Hlog, <- app_assoc.
Qed.

(** With a positive stepping and an end block inside the device, [n]
    passes are enough whenever [n] covers the distance to the end block. *)
Lemma while_loop_total :
  0 < stepping_ -> end_block <= logical_block_count ->
  logical_block_count < 2 ^ 64 ->
  forall (n : nat) v (st : St W),
    0 <= lv_block v -> end_block - lv_block v <= Z.of_nat n ->
    exists v' st', loop n v st = (Some v', st').
Proof.
  intros Hpos Hend Hcnt.
  induction n as [|n IH]; intros v st Hv Hn;
    destruct (lv_block v <? end_block) eqn:Hc;
    try (rewrite while_loop_done by assumption; eauto).
  - apply Z.ltb_lt in Hc; lia.
  - rewrite while_loop_step by assumption.
    destruct (signaled_to_exit (world st)) eqn:Hs.
    + rewrite loop_body_stop by assumption; eauto.
    + pose proof (loop_body_cursor v st Hs) as Hcur.
      destruct (body v st) as [[v1|v1] st1]; [|eauto].
      simpl in Hcur. apply Z.ltb_lt in Hc.
      assert (Hin : lv_block v < logical_block_count) by lia.
      assert (Hle : lv_block v <= logical_block_count) by lia.
      assert (Hs0 : 0 <= stepping_) by lia.
      pose proof (trim_stepping_inside (lv_block v) stepping_ Hin Hpos).
      pose proof (trim_stepping_le (lv_block v) stepping_ Hle Hs0).
      rewrite u64_small in Hcur by (pow64; lia).
      apply IH; lia.
Qed.
End LoopFacts.

(** * The claims *)

Lemma trim_stepping_spec_witness :
  0 <= 100 /\ 950 < 1000 /\ 950 + 100 > 1000 /\
  trim_stepping Sim.World (D := Sim.dev 1000 100) 1000 100 = 0 /\
  trim_stepping Sim.World (D := Sim.dev 1000 100) 950 100 = 1000 - 950.
Proof.
  assert (Hs : 0 <= 100) by lia.
  assert (Hp : 950 < 1000) by lia.
  assert (Hq : 950 + 100 > 1000) by lia.
  split; [exact Hs|]. split; [exact Hp|]. split; [exact Hq|]. split.
  - apply (proj1 (trim_stepping_spec (D := Sim.dev 1000 100) 1000 100 Hs)).
    simpl; lia.
  - exact (proj2 (proj2 (trim_stepping_spec (D := Sim.dev 1000 100) 950 100 Hs))
                 Hp Hq).
Defined.

(** ** The outcome of the step tester *)





(** ** What the restore step writes *)

(** C2.  On a healthy four-block disk holding 0x11 in every block, Step 1
    captures the four 0x11 bytes, but the pattern tests read back into the
    same buffer, so the final write puts the last pattern read back (0xFF)
    on the disk instead of the captured content. *)
Theorem burn_block_restores_last_readback :
  let st := Sim.start (Sim.healthy 4) in
  let r := burn_block (D := Sim.dev 4 4) 4 0 (repeat x00 4) 4 2
                      (make_patterns 4) st in
  fst (retry_read (D := Sim.dev 4 4) (attempts 2) (-1) 0 4 (repeat x00 4) 4 st)
  = (0, repeat x11 4) /\
  fst r = (0, repeat xff 4) /\
  last (log (snd r)) (EvPrint 0 0 0 []) = EvWrite 0 4 (repeat xff 4) 0 /\
  Sim.disk (world (snd r)) = repeat xff 4.
Proof. now vm_compute. Qed.

(** ** The recorded addresses *)

(** C1.  In scenario B (stepping 100, two retries) the only failing
    operations are the writes at block 300, so [300..400) is the one bad
    batch; the cursor is advanced before the addresses are pushed, and the
    list ends up holding [400..500), both when the limit of 5 stops the run
    and when a limit of 1000 lets it run to the end. *)
Theorem scenario_B_records_following_batch :
  let run max_errors :=
    burnin_loop (D := Sim.dev 1000 100) (E := Sim.env) 10 0 1000 100
                (repeat x00 100) 100 [] max_errors 2 0
                (Sim.start scenario_B_disk) in
  option_map lv_badblocks (fst (run 5)) = Some (Sim.range 400 100) /\
  option_map lv_badblocks (fst (run 1000)) = Some (Sim.range 400 100) /\
  option_map lv_block (fst (run 1000)) = Some 1000 /\
  forallb (event_ok_or_at 300) (log (snd (run 1000))) = true.
Proof. now vm_compute. Qed.

(** ** I/O at the end of the device *)

(** C3.  On a device of 1050 blocks with stepping 100 the effective end block
    is 1050 and the calculator trims the batch at block 1000 to 50 blocks,
    yet the step tester is called with the untrimmed stepping: the log holds
    a read of 100 blocks at block 1000, past the end of the device. *)
Theorem last_batch_io_past_device_end :
  let opts := Sim.options 0 1050 0 2 5 in
  let r := burnin_dev (D := Sim.dev 1050 100) (E := Sim.env) 20 opts []
                      (repeat x00 100) 0 (Sim.start (Sim.healthy 1050)) in
  burnin_end_block Sim.World (D := Sim.dev 1050 100) opts = 1050 /\
  trim_stepping Sim.World (D := Sim.dev 1050 100) 1000 100 = 50 /\
  nth_error (log (snd r)) 101 = Some (EvRead 1000 100 (- EINVAL)) /\
  1000 + 100 > logical_block_count (BlkDev := Sim.dev 1050 100).
Proof. now vm_compute. Qed.

(** ** Invalid-parameter failures *)

Section Drivers.
Context {W : Type} {D : BlkDev W} {E : Env W}.

Lemma burnin_dev_unfold fuel opts bb buf0 rv0 (st : St W) :
  burnin_dev fuel opts bb buf0 rv0 st
  = let '(r, st') :=
        burnin_loop fuel (burnin_start_block W opts) (burnin_end_block W opts)
                    (burnin_stepping W opts) buf0
                    (u64 (burnin_stepping W opts * logical_block_size))
                    bb (opt_max_errors opts) (opt_retries opts) rv0
                    (mkSt (signals_alarm 1 (world st)) (log st)) in
    match r with
    | None => (None, st')
    | Some v =>
        (Some (if lv_rv v <? 0
               then AppError.runtime (- lv_rv v)
                                     "error when performing burnin"%string
               else AppError.success,
               lv_badblocks v), st')
    end.
Proof.
  unfold burnin_dev, bind, poke, ret; simpl.
  destruct (burnin_loop _ _ _ _ _ _ _ _ _ _ _) as [[v|] st']; [|reflexivity].
  now destruct (lv_rv v <? 0).
Qed.

Lemma burnin_unfold fuel opts buf0 rv0 (st : St W) w1 w2 rv rv' imported :
  dev_open_rdwr (opt_device opts) (negb (opt_force opts)) (world st)
  = (rv, w1) ->
  (rv <? 0) = false ->
  String.eqb (opt_captcha opts) (captcha_calculate w1) = true ->
  let output_file :=
    if string_empty (opt_output_file opts) then BadBlockFile_filepath w1
    else opt_output_file opts in
  let input_file :=
    if string_empty (opt_input_file opts) then output_file
    else opt_input_file opts in
  BadBlockFile_read input_file [] w1 = ((rv', imported), w2) ->
  burnin fuel opts buf0 rv0 st
  = let '(r, st') :=
        burnin_dev fuel opts imported buf0 rv0
                   (mkSt (set_rw (opt_rwtype opts) w2) (log st)) in
    match r with
    | None => (None, st')
    | Some (err, bb) =>
        let '(e, st'') :=
          save_and_close output_file (opt_device opts) err bb st' in
        (Some e, st'')
    end.
Proof.
  intros Hopen Hrv Hcap output_file input_file Hread.
  unfold burnin, bind, lift, peek, poke, ret; simpl.
  rewrite Hopen, Hrv; simpl. rewrite Hcap; simpl.
  fold output_file. fold input_file. rewrite Hread; simpl.
  destruct (burnin_dev _ _ _ _ _ _) as [[[err bb]|] st']; reflexivity.
Qed.
End Drivers.

(** C7, as the claim states it, fails: with two retries the very first
    pattern write at block 0 is attempted three times in a row although each
    attempt returns [-EINVAL]. *)
Lemma einval_write_is_retried :
  let r := burnin_loop (D := Sim.dev 8 4) (E := Sim.env) 10 0 8 4
                       (repeat x00 4) 4 [] 5 2 0 (Sim.start einval_disk) in
  firstn 3 (skipn 2 (log (snd r)))
  = [ EvWrite 0 4 (repeat x00 4) (- EINVAL);
      EvWrite 0 4 (repeat x00 4) (- EINVAL);
      EvWrite 0 4 (repeat x00 4) (- EINVAL) ].
Proof. now vm_compute. Qed.

(** C7, amended.  When the final write of a batch ends in [-EINVAL] the loop
    is left at once: the state is the one right after that batch (no further
    device call), nothing is pushed on the bad-block list, the status is
    [-EINVAL]; and [burnin] turns a loop status [-EINVAL] into the runtime
    error with errno [EINVAL]. *)
Theorem einval_on_final_write_stops_run :
  (forall (W : Type) (D : BlkDev W) (E : Env W)
          start_block end_block stepping_ buflen_ max_errors_ retries patterns
          fuel v (st st2 : St W) buf,
      (lv_block v <? end_block) = true ->
      signaled_to_exit (world st) = false ->
      burn_block stepping_ (lv_block v) (lv_buf v) buflen_ (u64 retries)
                 patterns (snd (poll_timer start_block end_block v st))
      = ((- EINVAL, buf), st2) ->
      while_loop start_block end_block stepping_ buflen_ max_errors_ retries
                 patterns (S fuel) v st
      = (Some (mkLV (u64 (lv_block v + trim_stepping W (lv_block v) stepping_))
                    (- EINVAL) buf (lv_badblocks v)), st2)) /\
  (forall (W : Type) (D : BlkDev W) (E : Env W) fuel opts bb buf0 rv0
          (st st' : St W) v,
      burnin_loop fuel (burnin_start_block W opts) (burnin_end_block W opts)
                  (burnin_stepping W opts) buf0
                  (u64 (burnin_stepping W opts * logical_block_size))
                  bb (opt_max_errors opts) (opt_retries opts) rv0
                  (mkSt (signals_alarm 1 (world st)) (log st))
      = (Some v, st') ->
      lv_rv v = - EINVAL ->
      burnin_dev fuel opts bb buf0 rv0 st
      = (Some (AppError.runtime EINVAL "error when performing burnin"%string,
               lv_badblocks v), st')).
Proof.
  split.
  - intros W D E start_block end_block stepping_ buflen_ max_errors_ retries
           patterns fuel v st st2 buf Hc Hs Hb.
    rewrite while_loop_step by exact Hc.
    now rewrite (loop_body_run _ _ _ _ _ _ _ v st st2 (- EINVAL) buf Hs Hb).
  - intros W D E fuel opts bb buf0 rv0 st st' v Hloop Hrv.
    rewrite burnin_dev_unfold, Hloop, Hrv. reflexivity.
Qed.

Lemma einval_on_final_write_stops_run_witness :
  let v := mkLV 0 0 (repeat x00 4) [] in
  let st := Sim.start einval_disk in
  fst (while_loop (D := Sim.dev 8 4) (E := Sim.env) 0 8 4 4 5 2
                  (make_patterns 4) 3 v st)
  = Some (mkLV 4 (- EINVAL) (repeat x11 4) []) /\
  fst (burnin_dev (D := Sim.dev 8 4) (E := Sim.env) 3 (Sim.options 0 8 0 2 5)
                  [] (repeat x00 4) 0 st)
  = Some (AppError.runtime EINVAL "error when performing burnin"%string, []).
Proof.
  intros v st; split.
  - pose proof (proj1 einval_on_final_write_stops_run Sim.World (Sim.dev 8 4)
                      Sim.env 0 8 4 4 5 2 (make_patterns 4) 2%nat v st) as Hw.
    specialize (Hw (snd (burn_block (D := Sim.dev 8 4) 4 0 (repeat x00 4) 4
                                    (u64 2) (make_patterns 4) st))
                   (repeat x11 4)).
    rewrite Hw; [now vm_compute | reflexivity | reflexivity | now vm_compute].
  - pose proof (proj2 einval_on_final_write_stops_run Sim.World (Sim.dev 8 4)
                      Sim.env 3%nat (Sim.options 0 8 0 2 5) []
                      (repeat x00 4) 0 st) as Hd.
    specialize (Hd (snd (burnin_loop (D := Sim.dev 8 4) (E := Sim.env) 3 0 8 4
                                     (repeat x00 4) 4 [] 5 2 0 st))
                   (mkLV 4 (- EINVAL) (repeat x11 4) [])).
    rewrite Hd; [reflexivity | now vm_compute | reflexivity].
Defined.

(** ** The limit on recorded bad blocks *)

(** C10, as the claim states it, fails: with 200 imported entries and a
    maximum of 150 the total exceeds the maximum from the start, yet on a
    healthy disk all ten batches are tested (100 device calls, cursor at
    1000) and the run succeeds: the limit is only looked at after a bad
    batch. *)
Lemma limit_not_checked_without_bad_batch :
  let r := burnin (D := Sim.dev 1000 100) (E := Sim.env) 10
                  (Sim.options 0 1000 0 2 150) (repeat x00 100) 0
                  (Sim.start (prefilled_disk (Sim.range 0 200))) in
  fst r = Some AppError.success /\
  Sim.bbfile (world (snd r)) = Some (Sim.range 0 200) /\
  last (log (snd r)) (EvRead 0 0 0) = EvPrint 0 1000 1000 (Sim.range 0 200) /\
  length (filter Sim.is_io (log (snd r))) = 100%nat.
Proof. now vm_compute. Qed.

(** C10, amended.  When a batch is classified bad, the loop compares the
    length of the whole vector -- whatever it held when the loop was entered
    plus what was pushed since -- with the maximum, and leaves at once when
    it is larger; a pass whose batch is not bad goes on to the next batch
    whatever the length of the list; [burnin] hands the loop the list read
    from the input file.  With a limit of 150, sixty imported entries make
    the run stop after the first bad batch (160 entries), while with an
    empty file it takes two bad batches (200 entries). *)
Theorem limit_counts_imported_entries :
  (forall (W : Type) (D : BlkDev W) (E : Env W)
          start_block end_block stepping_ buflen_ max_errors_ retries patterns
          fuel v (st st2 : St W) rv buf,
      (lv_block v <? end_block) = true ->
      signaled_to_exit (world st) = false ->
      burn_block stepping_ (lv_block v) (lv_buf v) buflen_ (u64 retries)
                 patterns (snd (poll_timer start_block end_block v st))
      = ((rv, buf), st2) ->
      rv < 0 -> rv <> - EINVAL ->
      let stepping := trim_stepping W (lv_block v) stepping_ in
      let block := u64 (lv_block v + stepping) in
      let badblocks :=
        push_range (Z.to_nat stepping) 0 block (lv_badblocks v) in
      let st3 :=
        mkSt (world st2)
             (log st2 ++ [EvPrint start_block end_block block
                                  (lv_badblocks v)]) in
      let total := Z.of_nat (length (lv_badblocks v)) + Z.max 0 stepping in
      Z.of_nat (length badblocks) = total /\
      while_loop start_block end_block stepping_ buflen_ max_errors_ retries
                 patterns (S fuel) v st
      = if total >? max_errors_
        then (Some (mkLV block rv buf badblocks), st3)
        else while_loop start_block end_block stepping_ buflen_ max_errors_
                        retries patterns fuel (mkLV block rv buf badblocks)
                        st3) /\
  (forall (W : Type) (D : BlkDev W) (E : Env W)
          start_block end_block stepping_ buflen_ max_errors_ retries patterns
          fuel v (st st2 : St W) rv buf,
      (lv_block v <? end_block) = true ->
      signaled_to_exit (world st) = false ->
      burn_block stepping_ (lv_block v) (lv_buf v) buflen_ (u64 retries)
                 patterns (snd (poll_timer start_block end_block v st))
      = ((rv, buf), st2) ->
      0 <= rv ->
      while_loop start_block end_block stepping_ buflen_ max_errors_ retries
                 patterns (S fuel) v st
      = while_loop start_block end_block stepping_ buflen_ max_errors_
                   retries patterns fuel
                   (mkLV (u64 (lv_block v
                               + trim_stepping W (lv_block v) stepping_))
                         rv buf (lv_badblocks v))
                   st2) /\
  (let run imported :=
     burnin (D := Sim.dev 1000 100) (E := Sim.env) 10
            (Sim.options 0 1000 0 2 150) (repeat x00 100) 0
            (Sim.start (limit_disk imported)) in
   Sim.bbfile (world (snd (run (Sim.range 0 60))))
   = Some (Sim.range 0 60 ++ Sim.range 400 100) /\
   Sim.bbfile (world (snd (run [])))
   = Some (Sim.range 400 100 ++ Sim.range 600 100)).
Proof.
  split; [|split; [|now vm_compute]].
  - intros W D E start_block end_block stepping_ buflen_ max_errors_ retries
           patterns fuel v st st2 rv buf Hc Hs Hb Hneg Hinv
           stepping block badblocks st3 total.
    assert (Hlen : Z.of_nat (length badblocks) = total).
    { unfold badblocks, total. rewrite push_range_length. lia. }
    split; [exact Hlen|].
    rewrite while_loop_step by exact Hc.
    rewrite (loop_body_run _ _ _ _ _ _ _ v st st2 rv buf Hs Hb); cbv zeta.
    fold stepping. fold block. fold badblocks. fold st3.
    destruct (rv >=? 0) eqn:Hge; [apply Z.geb_le in Hge; lia|].
    destruct (rv =? - EINVAL) eqn:Heq;
      [apply Z.eqb_eq in Heq; contradiction|].
    rewrite Hlen. now destruct (total >? max_errors_).
  - intros W D E start_block end_block stepping_ buflen_ max_errors_ retries
           patterns fuel v st st2 rv buf Hc Hs Hb Hrv.
    rewrite while_loop_step by exact Hc.
    rewrite (loop_body_run _ _ _ _ _ _ _ v st st2 rv buf Hs Hb); cbv zeta.
    apply Z.geb_le in Hrv. now rewrite Hrv.
Qed.

Lemma limit_counts_imported_entries_witness :
  let v := mkLV 300 0 (repeat xff 100) (Sim.range 0 60) in
  let st := Sim.start (limit_disk (Sim.range 0 60)) in
  fst (while_loop (D := Sim.dev 1000 100) (E := Sim.env) 0 1000 100 100 150 2
                  (make_patterns 100) 3 v st)
  = Some (mkLV 400 (- EIO) (repeat x11 100)
               (Sim.range 0 60 ++ Sim.range 400 100)).
Proof.
  intros v st.
  pose proof (proj1 limit_counts_imported_entries Sim.World
                    (Sim.dev 1000 100) Sim.env 0 1000 100 100 150 2
                    (make_patterns 100) 2%nat v st) as Hw.
  specialize (Hw (snd (burn_block (D := Sim.dev 1000 100) 100 300
                                  (repeat xff 100) 100 (u64 2)
                                  (make_patterns 100) st))
                 (- EIO) (repeat x11 100)).
  destruct Hw as [_ Hw];
    [reflexivity | reflexivity | now vm_compute | reflexivity
     | discriminate | ].
  rewrite Hw. now vm_compute.
Defined.

(** ** Saving the list *)

(** C8, as the claim states it, fails: the run over a healthy disk succeeds,
    the save fails, and the overall result is the save error, not success. *)
Lemma save_failure_overwrites_success :
  let st := Sim.start unsavable_disk in
  let opts := Sim.options 0 8 0 2 5 in
  fst (burnin_dev (D := Sim.dev 8 4) (E := Sim.env) 10 opts []
                  (repeat x00 4) 0 st)
  = Some (AppError.success, []) /\
  fst (burnin (D := Sim.dev 8 4) (E := Sim.env) 10 opts (repeat x00 4) 0 st)
  = Some (AppError.writing_badblocks_file EIO "out.bbf") /\
  option_map AppError.succeeded
    (fst (burnin (D := Sim.dev 8 4) (E := Sim.env) 10 opts (repeat x00 4) 0 st))
  = Some false.
Proof. now vm_compute. Qed.

(** C8, amended.  When the device opens, the captcha matches and the run
    returns [err], a failing save replaces a successful [err] by the
    [writing_badblocks_file] error and leaves a failed [err] as it is. *)
Theorem save_failure_replaces_successful_result :
  forall (W : Type) (D : BlkDev W) (E : Env W) fuel opts buf0 rv0
         (st st1 : St W) w1 w2 w3 rv rv' rvs imported err bb,
    dev_open_rdwr (opt_device opts) (negb (opt_force opts)) (world st)
    = (rv, w1) ->
    (rv <? 0) = false ->
    String.eqb (opt_captcha opts) (captcha_calculate w1) = true ->
    let output_file :=
      if string_empty (opt_output_file opts) then BadBlockFile_filepath w1
      else opt_output_file opts in
    let input_file :=
      if string_empty (opt_input_file opts) then output_file
      else opt_input_file opts in
    BadBlockFile_read input_file [] w1 = ((rv', imported), w2) ->
    burnin_dev fuel opts imported buf0 rv0
               (mkSt (set_rw (opt_rwtype opts) w2) (log st))
    = (Some (err, bb), st1) ->
    BadBlockFile_write output_file bb (world st1) = (rvs, w3) ->
    rvs < 0 ->
    fst (burnin fuel opts buf0 rv0 st)
    = Some (if AppError.succeeded err
            then AppError.writing_badblocks_file (- rvs) output_file
            else err).
Proof.
  intros W D E fuel opts buf0 rv0 st st1 w1 w2 w3 rv rv' rvs imported err bb
         Hopen Hrv Hcap output_file input_file Hread Hrun Hsave Hneg.
  rewrite (burnin_unfold fuel opts buf0 rv0 st w1 w2 rv rv' imported
                         Hopen Hrv Hcap Hread).
  fold output_file. rewrite Hrun.
  unfold save_and_close, bind, lift, ret. rewrite Hsave.
  apply Z.ltb_lt in Hneg. rewrite Hneg. cbn [andb world].
  destruct (dev_close w3) as [rvc w4]. cbn [fst].
  destruct err; cbn [AppError.succeeded]; try rewrite andb_false_r;
    reflexivity.
Qed.

Lemma save_failure_replaces_successful_result_witness :
  fst (burnin (D := Sim.dev 8 4) (E := Sim.env) 10 (Sim.options 0 8 0 2 5)
              (repeat x00 4) 0 (Sim.start unsavable_disk))
  = Some (AppError.writing_badblocks_file (- - EIO) "out.bbf").
Proof.
  apply (save_failure_replaces_successful_result
           Sim.World (Sim.dev 8 4) Sim.env 10%nat (Sim.options 0 8 0 2 5)
           (repeat x00 4) 0 (Sim.start unsavable_disk)
           (snd (burnin_dev (D := Sim.dev 8 4) (E := Sim.env) 10
                            (Sim.options 0 8 0 2 5) [] (repeat x00 4) 0
                            (Sim.start unsavable_disk)))
           unsavable_disk unsavable_disk
           (Sim.mkWorld (repeat xff 8) [] false false None (- EIO))
           0 (-2) (- EIO) [] AppError.success []).
  - reflexivity.
  - reflexivity.
  - reflexivity.
  - reflexivity.
  - now vm_compute.
  - now vm_compute.
  - now vm_compute.
Defined.

(** ** Termination of the loop *)

(** C4.  The loop has no test of its own for a zero batch size; under the
    conditions in which [burnin] calls it -- a positive stepping and an end
    block that does not exceed the block count, which [burnin_end_block]
    guarantees -- the loop condition does the work.  Whenever the calculator
    returns zero at the cursor, the cursor is at or beyond the end block and
    the loop is left at once, without a pass and without a device call;
    before the end block the calculator is positive and every pass that
    tests a batch moves the cursor forward; so for a retry count in the
    range of a non-negative [int], [end_block - start_block] passes are
    enough for [burnin_loop] to return: no position is tested again and
    again. *)
Theorem loop_returns_with_positive_stepping :
  forall (W : Type) (D : BlkDev W) (E : Env W)
         start_block end_block stepping_ buflen_ max_errors_ retries,
    0 < stepping_ ->
    0 <= start_block ->
    end_block <= logical_block_count ->
    logical_block_count < 2 ^ 64 ->
    0 <= retries < 2 ^ 31 ->
    (forall patterns fuel v (st : St W),
        trim_stepping W (lv_block v) stepping_ = 0 ->
        while_loop start_block end_block stepping_ buflen_ max_errors_
                   retries patterns fuel v st
        = (Some v, st)) /\
    (forall b, b < end_block -> 0 < trim_stepping W b stepping_) /\
    (forall patterns v (st : St W),
        0 <= lv_block v < end_block ->
        signaled_to_exit (world st) = false ->
        lv_block v
        < lv_block (flow_vars (fst (loop_body start_block end_block stepping_
                                              buflen_ max_errors_ retries
                                              patterns v st)))) /\
    (forall buf_ badblocks rv0 (st : St W),
        exists v st',
          burnin_loop (Z.to_nat (end_block - start_block)) start_block
                      end_block stepping_ buf_ buflen_ badblocks max_errors_
                      retries rv0 st
          = (Some v, st')) /\
    (forall opts, burnin_end_block W opts <= logical_block_count).
Proof.
  intros W D E start_block end_block stepping_ buflen_ max_errors_ retries
         Hpos Hstart Hend Hcnt Hretries.
  split; [|split; [|split; [|split]]].
  - intros patterns fuel v st Hzero.
    apply while_loop_done. apply Z.ltb_ge.
    unfold trim_stepping in Hzero.
    destruct (lv_block v >? logical_block_count) eqn:Hp; lia.
  - intros b Hb. apply trim_stepping_inside; lia.
  - intros patterns v st Hv Hs.
    rewrite loop_body_cursor by exact Hs.
    assert (Hin : lv_block v < logical_block_count) by lia.
    assert (Hle : lv_block v <= logical_block_count) by lia.
    assert (Hs0 : 0 <= stepping_) by lia.
    pose proof (trim_stepping_inside (lv_block v) stepping_ Hin Hpos).
    pose proof (trim_stepping_le (lv_block v) stepping_ Hle Hs0).
    rewrite u64_small by (pow64; lia). lia.
  - intros buf_ badblocks rv0 st.
    unfold burnin_loop, bind, Info_print, emit, ret.
    destruct (while_loop_total start_block end_block stepping_ buflen_
                max_errors_ retries (make_patterns buflen_) Hpos Hend Hcnt
                (Z.to_nat (end_block - start_block))
                (mkLV start_block rv0 buf_ badblocks)
                (mkSt (world st)
                      (log st ++ [EvPrint start_block end_block start_block
                                          badblocks])))
      as (v & st' & Hrun).
    + exact Hstart.
    + cbn [lv_block]. lia.
    + rewrite Hrun. eauto.
  - intros opts. unfold burnin_end_block. apply Z.le_min_r.
Qed.

Lemma loop_returns_with_positive_stepping_witness :
  while_loop (D := Sim.dev 1000 100) (E := Sim.env) 0 1000 100 100 5 2
             (make_patterns 100) 7 (mkLV 1000 0 [] [])
             (Sim.start (Sim.healthy 1000))
  = (Some (mkLV 1000 0 [] []), Sim.start (Sim.healthy 1000)) /\
  0 < trim_stepping Sim.World (D := Sim.dev 1000 100) 900 100 /\
  exists v st',
    burnin_loop (D := Sim.dev 1000 100) (E := Sim.env)
                (Z.to_nat (1000 - 0)) 0 1000 100 (repeat x00 100) 100 [] 5 2
                0 (Sim.start (Sim.healthy 1000))
    = (Some v, st').
Proof.
  assert (Hpos : 0 < 100) by lia.
  assert (Hstart : 0 <= 0) by lia.
  assert (Hend : 1000 <= logical_block_count (BlkDev := Sim.dev 1000 100))
    by (simpl; lia).
  assert (Hcnt : logical_block_count (BlkDev := Sim.dev 1000 100) < 2 ^ 64)
    by reflexivity.
  assert (Hretries : 0 <= 2 < 2 ^ 31) by (split; [discriminate | reflexivity]).
  destruct (loop_returns_with_positive_stepping
              Sim.World (Sim.dev 1000 100) Sim.env 0 1000 100 100 5 2
              Hpos Hstart Hend Hcnt Hretries)
    as (Hzero & Htrim & _ & Hrun & _).
  split; [|split].
  - apply Hzero. reflexivity.
  - apply Htrim. lia.
  - apply Hrun.
Defined.

(** ** The effective range *)

Lemma round_down_spec (n m : Z) :
  0 < m -> 0 <= n < 2 ^ 64 ->
  math.round_down n m = (n / m) * m /\
  (n / m) * m <= n < (n / m + 1) * m.
Proof.
  intros Hm Hn.
  pose proof (Z.div_mod n m ltac:(lia)) as Hdm.
  pose proof (Z.mod_pos_bound n m Hm) as Hr.
  pose proof (Z.div_pos n m ltac:(lia) Hm) as Hq.
  assert (Hb : (n / m) * m <= n < (n / m + 1) * m) by nia.
  split; [|exact Hb].
  unfold math.round_down. apply u64_small. nia.
Qed.

Lemma round_up_spec (n m : Z) :
  0 < m -> 0 <= n -> n + m <= 2 ^ 64 ->
  let k := (n + m - 1) / m in
  math.round_up n m = k * m /\ (k - 1) * m < n <= k * m.
Proof.
  intros Hm Hn Hnm k.
  pose proof (Z.div_mod (n + m - 1) m ltac:(lia)) as Hdm.
  pose proof (Z.mod_pos_bound (n + m - 1) m Hm) as Hr.
  pose proof (Z.div_pos (n + m - 1) m ltac:(lia) Hm) as Hq.
  fold k in Hdm, Hq.
  assert (Hb : (k - 1) * m < n <= k * m) by nia.
  split; [|exact Hb].
  unfold math.round_up. rewrite (u64_small (n + m - 1)) by (pow64; lia).
  fold k. apply u64_small. pow64. nia.
Qed.

(** C9.  With a positive stepping [s] (the option, or the device default
    when the option is 0) the loop is started at the largest multiple of [s]
    not above the requested start block, and ends at the least multiple of
    [s] not below [min end_block count], capped at the block count.  For a
    request of [150,250) with stepping 100 the range is [100,300): the blocks
    [100,150) and [250,300) are overwritten as well. *)
Theorem burnin_range_alignment :
  (forall (W : Type) (D : BlkDev W) opts,
      let s := burnin_stepping W opts in
      let e := Z.min (opt_end_block opts) logical_block_count in
      0 < s ->
      0 <= opt_start_block opts < 2 ^ 64 ->
      0 <= e ->
      e + s <= 2 ^ 64 ->
      (exists k,
          burnin_start_block W opts = k * s /\
          k * s <= opt_start_block opts < (k + 1) * s) /\
      (exists k,
          burnin_end_block W opts = Z.min (k * s) logical_block_count /\
          (k - 1) * s < e <= k * s)) /\
  (let opts := Sim.options 150 250 0 2 5 in
   let r := burnin_dev (D := Sim.dev 1000 100) (E := Sim.env) 10 opts []
                       (repeat x00 100) 0 (Sim.start (Sim.healthy 1000)) in
   burnin_start_block Sim.World (D := Sim.dev 1000 100) opts = 100 /\
   burnin_end_block Sim.World (D := Sim.dev 1000 100) opts = 300 /\
   map Sim.io_extent (filter Sim.is_io (log (snd r)))
   = repeat (Some (100, 100)) 10 ++ repeat (Some (200, 100)) 10 /\
   Sim.disk (world (snd r))
   = repeat x11 100 ++ repeat xff 200 ++ repeat x11 700).
Proof.
  split; [|now vm_compute].
  intros W D opts s e Hs Hstart He Hes. split.
  - exists (opt_start_block opts / s).
    unfold burnin_start_block. fold s.
    exact (round_down_spec (opt_start_block opts) s Hs Hstart).
  - exists ((e + s - 1) / s).
    unfold burnin_end_block. fold s. fold e.
    destruct (round_up_spec e s Hs He Hes) as [Hup Hb].
    rewrite Hup. split; [reflexivity | exact Hb].
Qed.

Lemma burnin_range_alignment_witness :
  let opts := Sim.options 150 250 0 2 5 in
  (exists k,
      burnin_start_block Sim.World (D := Sim.dev 1000 100) opts = k * 100 /\
      k * 100 <= 150 < (k + 1) * 100) /\
  (exists k,
      burnin_end_block Sim.World (D := Sim.dev 1000 100) opts
      = Z.min (k * 100) 1000 /\
      (k - 1) * 100 < 250 <= k * 100).
Proof.
  intros opts.
  apply (proj1 burnin_range_alignment Sim.World (Sim.dev 1000 100) opts).
  - reflexivity.
  - split; [discriminate | reflexivity].
  - discriminate.
  - discriminate.
Defined.


(** * Further properties of the burn-in engine *)

(** ** The stepping calculator and the pattern verifier *)

(** The calculator never returns more than was requested, and a batch
    of the returned size never ends past the device: it ends at or before
    the block count, or is empty when the position is already beyond it. *)
Theorem trim_stepping_within_device :
  forall (W : Type) (D : BlkDev W) (p s : Z),
    0 <= s ->
    0 <= trim_stepping W p s <= s /\
    p + trim_stepping W p s <= Z.max p logical_block_count.
Proof.
  intros W D p s Hs. unfold trim_stepping.
  destruct (p >? logical_block_count) eqn:Hp; lia.
Qed.

Lemma trim_stepping_within_device_witness :
  0 <= trim_stepping Sim.World (D := Sim.dev 1050 100) 1000 100 <= 100 /\
  1000 + trim_stepping Sim.World (D := Sim.dev 1050 100) 1000 100
  <= Z.max 1000 1050.
Proof.
  apply (trim_stepping_within_device Sim.World (Sim.dev 1050 100) 1000 100).
  discriminate.
Defined.

Lemma byte_val_inj (x y : byte) : byte_val x = byte_val y -> x = y.
Proof.
  unfold byte_val; intros Hxy. apply N2Z.inj in Hxy.
  pose proof (Byte.of_to_N x) as Hx. rewrite Hxy, Byte.of_to_N in Hx.
  now inversion Hx.
Qed.

Lemma memcmp_zero (n : nat) :
  forall a b,
    memcmp a b n = 0 -> (n <= length a)%nat -> (n <= length b)%nat ->
    firstn n a = firstn n b.
Proof.
  induction n as [|n IH]; intros a b Hcmp Ha Hb; [reflexivity|].
  destruct a as [|x a]; [simpl in Ha; lia|].
  destruct b as [|y b]; [simpl in Hb; lia|].
  simpl in Hcmp, Ha, Hb |- *.
  destruct (Byte.eqb x y) eqn:Hxy.
  - apply Byte.byte_dec_bl in Hxy; subst y. f_equal. apply IH; auto; lia.
  - apply Byte.eqb_false in Hxy. exfalso; apply Hxy, byte_val_inj. lia.
Qed.

Lemma memcmp_firstn_eq (n : nat) :
  forall a b, firstn n a = firstn n b -> memcmp a b n = 0.
Proof.
  induction n as [|n IH]; intros a b Hab; [now destruct a|].
  destruct a as [|x a], b as [|y b]; simpl in Hab |- *;
    try reflexivity; try discriminate.
  inversion Hab; subst y. rewrite (Byte.byte_dec_lb eq_refl). now apply IH.
Qed.

(** X1.  The verdict of the pattern verifier, case by case: when every write
    attempt failed it returns the last write status without reading; when
    the write went through and every read-back attempt failed it returns
    the last read status; otherwise it returns 0 if the buffer read back
    agrees with the pattern on the first [buflen_] bytes and [-EIO] if it
    differs.  So it never returns a positive status, any failure or
    mismatch gives a negative one, and 0 means the read-back agrees. *)
Theorem write_read_compare_verdict :
  forall (W : Type) (D : BlkDev W) stepping_ block buf_ buflen_ retries
         write_buf (st st1 st2 : St W) rw rr buf1,
    retry_write (attempts retries) (-1) block stepping_ write_buf buflen_ st
    = (rw, st1) ->
    retry_read (attempts retries) (-1) block stepping_ buf_ buflen_ st1
    = ((rr, buf1), st2) ->
    let r :=
      write_read_compare stepping_ block buf_ buflen_ retries write_buf st in
    let n := Z.to_nat buflen_ in
    fst (fst r) <= 0 /\
    (rw < 0 -> r = ((rw, buf_), st1)) /\
    (0 <= rw -> rr < 0 -> r = ((rr, buf1), st2)) /\
    (0 <= rw -> 0 <= rr ->
     firstn n buf1 = firstn n write_buf -> r = ((0, buf1), st2)) /\
    (0 <= rw -> 0 <= rr ->
     (n <= length write_buf)%nat -> (n <= length buf1)%nat ->
     firstn n buf1 <> firstn n write_buf -> r = ((- EIO, buf1), st2)) /\
    (fst (fst r) = 0 ->
     (n <= length write_buf)%nat -> (n <= length (snd (fst r)))%nat ->
     firstn n (snd (fst r)) = firstn n write_buf).
Proof.
  intros W D stepping_ block buf_ buflen_ retries write_buf st st1 st2 rw rr
         buf1 Hwr Hrd r n.
  unfold r, write_read_compare, bind, ret. rewrite Hwr.
  destruct (rw <? 0) eqn:Hw.
  - apply Z.ltb_lt in Hw. cbn [fst snd].
    repeat (split; [intros; try reflexivity; lia|]). intros; lia.
  - apply Z.ltb_ge in Hw. rewrite Hrd.
    destruct (rr <? 0) eqn:Hr.
    + apply Z.ltb_lt in Hr. cbn [fst snd].
      repeat (split; [intros; try reflexivity; lia|]). intros; lia.
    + apply Z.ltb_ge in Hr. fold n.
      destruct (memcmp write_buf buf1 n =? 0) eqn:Hc; cbn [negb fst snd].
      * apply Z.eqb_eq in Hc.
        split; [lia|]. split; [intros; lia|]. split; [intros; lia|].
        split; [reflexivity|]. split.
        -- intros _ _ Hlw Hlb Hne. exfalso. apply Hne. symmetry.
           now apply memcmp_zero.
        -- intros _ Hlw Hlb. symmetry. now apply memcmp_zero.
      * apply Z.eqb_neq in Hc.
        split; [unfold EIO; lia|]. split; [intros; lia|].
        split; [intros; lia|]. split.
        -- intros _ _ Heq. exfalso. apply Hc. apply memcmp_firstn_eq.
           now symmetry.
        -- split; [reflexivity|]. unfold EIO. intros; lia.
Qed.

Lemma write_read_compare_verdict_witness :
  let st := Sim.start garbling_disk in
  write_read_compare (D := Sim.dev 4 4) 4 0 (repeat x00 4) 4 2 (repeat x55 4)
                     st
  = ((- EIO, repeat "B"%byte 4),
     snd (retry_read (D := Sim.dev 4 4) (attempts 2) (-1) 0 4 (repeat x00 4)
                     4
                     (snd (retry_write (D := Sim.dev 4 4) (attempts 2) (-1)
                                       0 4 (repeat x55 4) 4 st)))).
Proof.
  intros st.
  destruct (write_read_compare_verdict
              Sim.World (Sim.dev 4 4) 4 0 (repeat x00 4) 4 2 (repeat x55 4)
              st
              (snd (retry_write (D := Sim.dev 4 4) (attempts 2) (-1) 0 4
                                (repeat x55 4) 4 st))
              (snd (retry_read (D := Sim.dev 4 4) (attempts 2) (-1) 0 4
                               (repeat x00 4) 4
                               (snd (retry_write (D := Sim.dev 4 4)
                                                 (attempts 2) (-1) 0 4
                                                 (repeat x55 4) 4 st))))
              0 0 (repeat "B"%byte 4))
    as (_ & _ & _ & _ & Hmis & _).
  - now vm_compute.
  - now vm_compute.
  - apply Hmis.
    + discriminate.
    + discriminate.
    + vm_compute; lia.
    + vm_compute; lia.
    + vm_compute; discriminate.
Defined.

(** ** The device calls of one step *)

Section Calls.
Context {W : Type} {D : BlkDev W}.

Lemma appends_refl P n (st : St W) : appends P n st st.
Proof. exists []; rewrite app_nil_r; repeat split; [constructor | simpl; lia]. Qed.

Lemma appends_trans P n1 n2 (st1 st2 st3 : St W) :
  appends P n1 st1 st2 -> appends P n2 st2 st3 ->
  appends P (n1 + n2) st1 st3.
Proof.
  intros (e1 & H1 & F1 & L1) (e2 & H2 & F2 & L2). exists (e1 ++ e2).
  rewrite H2, H1, app_assoc, length_app.
  repeat split; [now apply Forall_app | lia].
Qed.

Lemma appends_weaken P n m (st st' : St W) :
  (n <= m)%nat -> appends P n st st' -> appends P m st st'.
Proof. intros Hnm (e & H1 & F & L). exists e; repeat split; auto; lia. Qed.

Lemma retry_write_calls n block count buf buflen :
  forall rv0 (st : St W),
    appends (call_at block count) n st
            (snd (retry_write n rv0 block count buf buflen st)).
Proof.
  induction n as [|n IH]; intros rv0 st; simpl.
  - apply appends_refl.
  - destruct (rv0 <? 0); [|apply appends_refl].
    unfold bind.
    destruct (blkdev_write_log block count buf buflen st) as (r & w & ->).
    change (S n) with (1 + n)%nat.
    eapply appends_trans; [|apply IH].
    exists [EvWrite block count buf r]; cbn [log]; repeat split; auto.
    constructor; [now split | constructor].
Qed.

Lemma retry_read_calls n block count buflen :
  forall rv0 buf (st : St W),
    appends (call_at block count) n st
            (snd (retry_read n rv0 block count buf buflen st)).
Proof.
  induction n as [|n IH]; intros rv0 buf st; simpl.
  - apply appends_refl.
  - destruct (rv0 <? 0); [|apply appends_refl].
    unfold bind.
    destruct (blkdev_read_log block count buf buflen st)
      as (r & buf' & w & ->).
    change (S n) with (1 + n)%nat.
    eapply appends_trans; [|apply IH].
    exists [EvRead block count r]; cbn [log]; repeat split; auto.
    constructor; [now split | constructor].
Qed.

Lemma write_read_compare_calls stepping_ block buf buflen retries p
      (st : St W) :
  appends (call_at block stepping_) (2 * attempts retries) st
          (snd (write_read_compare stepping_ block buf buflen retries p st)).
Proof.
  unfold write_read_compare, bind, ret.
  pose proof (retry_write_calls (attempts retries) block stepping_ p buflen
                                (-1) st) as Hw.
  destruct (retry_write _ _ _ _ _ _ st) as [rv st1].
  destruct (rv <? 0); [eapply appends_weaken; [|exact Hw]; lia|].
  pose proof (retry_read_calls (attempts retries) block stepping_ buflen
                               (-1) buf st1) as Hr.
  destruct (retry_read _ _ _ _ _ _ st1) as [[rv' buf'] st2].
  assert (Hx : appends (call_at block stepping_) (2 * attempts retries)
                       st st2).
  { eapply appends_weaken; [|eapply appends_trans; eassumption]. lia. }
  destruct (rv' <? 0); [exact Hx|].
  now destruct (negb _).
Qed.

Lemma test_patterns_calls patterns_ stepping_ block buflen retries :
  forall rv buf (st : St W),
    appends (call_at block stepping_)
            (length patterns_ * (2 * attempts (int_of_u64 retries))) st
            (snd (test_patterns patterns_ rv stepping_ block buf buflen
                                retries st)).
Proof.
  induction patterns_ as [|p rest IH]; intros rv buf st.
  - apply appends_refl.
  - cbn [test_patterns]. unfold bind.
    pose proof (write_read_compare_calls stepping_ block buf buflen
                  (int_of_u64 retries) p st) as Hw.
    destruct (write_read_compare _ _ _ _ _ _ st) as [[rv' buf'] st1].
    eapply appends_weaken;
      [|eapply appends_trans; [exact Hw | apply IH]].
    cbn [length]. lia.
Qed.

Lemma burn_block_calls stepping_ block buf buflen retries patterns_
      (st : St W) :
  appends (call_at block stepping_)
          (2 * attempts retries
           + length patterns_ * (2 * attempts (int_of_u64 retries)))
          st (snd (burn_block stepping_ block buf buflen retries patterns_ st)).
Proof.
  unfold burn_block, preserve_and_test, bind, ret.
  pose proof (retry_read_calls (attempts retries) block stepping_ buflen
                               (-1) buf st) as H1.
  destruct (retry_read _ _ _ _ _ _ st) as [[rv1 buf1] st1].
  set (buf2 := if rv1 <? 0 then _ else _).
  pose proof (test_patterns_calls patterns_ stepping_ block buflen retries
                                  rv1 buf2 st1) as H2.
  destruct (test_patterns _ _ _ _ _ _ _ st1) as [[rv3 buf3] st3].
  pose proof (retry_write_calls (attempts retries) block stepping_ buf3
                                buflen (-1) st3) as H3.
  destruct (retry_write _ _ _ _ _ _ st3) as [rv4 st4].
  eapply appends_weaken;
    [|eapply appends_trans; [eapply appends_trans; eassumption | exact H3]].
  lia.
Qed.
End Calls.

Lemma attempts_small (retries : Z) :
  0 <= retries < 2 ^ 31 ->
  attempts retries = S (Z.to_nat retries) /\
  attempts (int_of_u64 retries) = S (Z.to_nat retries).
Proof.
  intros Hr. change (2 ^ 31) with 2147483648 in Hr.
  assert (Hi : int_of_u64 retries = retries).
  { unfold int_of_u64. change (2 ^ 32) with 4294967296.
    change (2 ^ 31) with 2147483648.
    rewrite Z.mod_small by lia.
    destruct (retries <? 2147483648) eqn:Hlt; [reflexivity|].
    apply Z.ltb_ge in Hlt; lia. }
  rewrite Hi. unfold attempts. rewrite u64_small by (pow64; lia). auto.
Qed.

(** X2.  One step only calls the device on its own batch, and a bounded
    number of times: with [retries] in the range of a non-negative [int],
    every device call of [burn_block] is a read or write of [stepping_]
    blocks at [block], and there are at most
    [(retries+1) * (2 * #patterns + 2)] of them. *)
Theorem burn_block_calls_bounded :
  forall (W : Type) (D : BlkDev W) stepping_ block buf_ buflen_ retries
         patterns_ (st : St W),
    0 <= retries < 2 ^ 31 ->
    exists evs,
      log (snd (burn_block stepping_ block buf_ buflen_ retries patterns_ st))
      = log st ++ evs /\
      Forall (call_at block stepping_) evs /\
      (length evs
       <= (Z.to_nat retries + 1) * (2 * length patterns_ + 2))%nat.
Proof.
  intros W D stepping_ block buf_ buflen_ retries patterns_ st Hr.
  destruct (burn_block_calls stepping_ block buf_ buflen_ retries patterns_ st)
    as (evs & Hlog & Hall & Hlen).
  destruct (attempts_small retries Hr) as [Ha Hb].
  rewrite Ha, Hb in Hlen.
  exists evs. repeat split; [exact Hlog | exact Hall | nia].
Qed.

Lemma burn_block_calls_bounded_witness :
  exists evs,
    log (snd (burn_block (D := Sim.dev 4 4) 4 0 (repeat x00 4) 4 2
                         (make_patterns 4) (Sim.start unwritable_disk)))
    = log (Sim.start unwritable_disk) ++ evs /\
    Forall (call_at 0 4) evs /\
    (length evs <= (Z.to_nat 2 + 1) * (2 * length (make_patterns 4) + 2))%nat.
Proof.
  apply (burn_block_calls_bounded Sim.World (Sim.dev 4 4) 4 0 (repeat x00 4)
                                  4 2 (make_patterns 4)
                                  (Sim.start unwritable_disk)).
  split; [discriminate | reflexivity].
Defined.

(** ** The loop: cancellation, empty ranges, invariants *)

Lemma push_range_app (n : nat) :
  forall i block bb,
    push_range n i block bb = bb ++ push_range n i block [].
Proof.
  induction n as [|n IH]; intros i block bb; simpl.
  - now rewrite app_nil_r.
  - rewrite IH, (IH _ _ [_]), <- app_assoc. reflexivity.
Qed.

Lemma appends_impl {W : Type} (P Q : Event -> Prop) n (st st' : St W) :
  (forall e, P e -> Q e) -> appends P n st st' -> appends Q n st st'.
Proof.
  intros HPQ (evs & Hlog & Hall & Hlen). exists evs.
  repeat split; try assumption. eapply Forall_impl; eassumption.
Qed.

Section LoopInvariants.
Context {W : Type} {D : BlkDev W} {E : Env W}.
Variables (start_block end_block stepping_ buflen_ max_errors_ retries : Z).
Variable (patterns : list (list byte)).

Local Abbreviation body :=
  (loop_body start_block end_block stepping_ buflen_ max_errors_ retries
             patterns).
Local Abbreviation loop :=
  (while_loop start_block end_block stepping_ buflen_ max_errors_ retries
              patterns).

Lemma while_loop_stop fuel v (st : St W) :
  signaled_to_exit (world st) = true -> loop (S fuel) v st = (Some v, st).
Proof.
  intros Hs. destruct (lv_block v <? end_block) eqn:Hc.
  - rewrite while_loop_step by exact Hc.
    now rewrite loop_body_stop by exact Hs.
  - now apply while_loop_done.
Qed.

(** What one pass does to the list: it keeps what was there. *)
Lemma loop_body_keeps_list v (st : St W) :
  exists added,
    lv_badblocks (flow_vars (fst (body v st))) = lv_badblocks v ++ added.
Proof.
  destruct (signaled_to_exit (world st)) eqn:Hs.
  - rewrite loop_body_stop by exact Hs. exists []; simpl.
    now rewrite app_nil_r.
  - destruct (burn_block stepping_ (lv_block v) (lv_buf v) buflen_
                (u64 retries) patterns
                (snd (poll_timer start_block end_block v st)))
      as [[rv buf] st2] eqn:Hb.
    rewrite (loop_body_run _ _ _ _ _ _ _ v st st2 rv buf Hs Hb); cbv zeta.
    destruct (rv >=? 0); [exists []; simpl; now rewrite app_nil_r|].
    destruct (rv =? - EINVAL); [exists []; simpl; now rewrite app_nil_r|].
    eexists. destruct (Z.of_nat _ >? max_errors_);
      cbn [fst flow_vars lv_badblocks]; apply push_range_app.
Qed.

Lemma while_loop_keeps_list fuel :
  forall v (st st' : St W) v',
    loop fuel v st = (Some v', st') ->
    exists added, lv_badblocks v' = lv_badblocks v ++ added.
Proof.
  induction fuel as [|fuel IH]; intros v st st' v' Hrun;
    destruct (lv_block v <? end_block) eqn:Hc;
    try (rewrite while_loop_done in Hrun by exact Hc; inversion Hrun; subst;
         exists []; now rewrite app_nil_r).
  - simpl in Hrun. rewrite Hc in Hrun. discriminate.
  - rewrite while_loop_step in Hrun by exact Hc.
    destruct (loop_body_keeps_list v st) as [a1 Ha1].
    destruct (body v st) as [[v1|v1] st1]; cbn [fst flow_vars] in Ha1.
    + destruct (IH _ _ _ _ Hrun) as [a2 Ha2].
      exists (a1 ++ a2). now rewrite Ha2, Ha1, app_assoc.
    + inversion Hrun; subst. now exists a1.
Qed.

(** On a device whose writes never fail a pass records nothing and leaves a
    non-negative status. *)
Lemma burn_block_status_writable :
  (forall b c buf len w, 0 <= fst (dev_write b c buf len w)) ->
  forall block buf (st : St W),
    0 <= fst (fst (burn_block stepping_ block buf buflen_ (u64 retries)
                              patterns st)).
Proof.
  intros Hw block buf st. rewrite burn_block_unfold.
  destruct (preserve_and_test _ _ _ _ _ _ st) as [[rv2 buf2] st2].
  unfold attempts. cbn [retry_write Z.ltb Z.compare]. unfold bind.
  unfold blkdev_write, bind, lift, emit, ret.
  pose proof (Hw block stepping_ buf2 buflen_ (world st2)) as Hr.
  destruct (dev_write block stepping_ buf2 buflen_ (world st2)) as [r w].
  cbn [fst] in Hr.
  match goal with
  | |- context [retry_write ?n r ?b ?c ?bf ?l ?s] =>
      assert (Hn : retry_write n r b c bf l s = (r, s))
        by (destruct n; simpl; [reflexivity|];
            destruct (r <? 0) eqn:Hlt; [apply Z.ltb_lt in Hlt; lia
                                       | reflexivity]);
      rewrite Hn
  end.
  exact Hr.
Qed.

Lemma while_loop_writable :
  (forall b c buf len w, 0 <= fst (dev_write b c buf len w)) ->
  forall fuel v (st st' : St W) v',
    loop fuel v st = (Some v', st') ->
    lv_badblocks v' = lv_badblocks v /\
    (0 <= lv_rv v' \/ lv_rv v' = lv_rv v).
Proof.
  intros Hw.
  induction fuel as [|fuel IH]; intros v st st' v' Hrun;
    destruct (lv_block v <? end_block) eqn:Hc;
    try (rewrite while_loop_done in Hrun by exact Hc; inversion Hrun; subst;
         now auto).
  - simpl in Hrun. rewrite Hc in Hrun. discriminate.
  - rewrite while_loop_step in Hrun by exact Hc.
    destruct (signaled_to_exit (world st)) eqn:Hs.
    + rewrite loop_body_stop in Hrun by exact Hs.
      inversion Hrun; subst; auto.
    + pose proof (burn_block_status_writable Hw (lv_block v) (lv_buf v)
                    (snd (poll_timer start_block end_block v st))) as Hrv.
      destruct (burn_block stepping_ (lv_block v) (lv_buf v) buflen_
                  (u64 retries) patterns
                  (snd (poll_timer start_block end_block v st)))
        as [[rv buf] st2] eqn:Hb.
      cbn [fst] in Hrv.
      rewrite (loop_body_run _ _ _ _ _ _ _ v st st2 rv buf Hs Hb) in Hrun.
      cbv zeta in Hrun.
      destruct (rv >=? 0) eqn:Hge;
        [|rewrite Z.geb_leb in Hge; apply Z.leb_gt in Hge; lia].
      destruct (IH _ _ _ _ Hrun) as [Hl Hr]. cbn in Hl, Hr.
      split; [exact Hl | left; lia].
Qed.

(** The events of one pass, and where it leaves the cursor. *)
Lemma loop_body_calls v (st : St W) :
  start_block <= lv_block v < end_block ->
  exists n,
    appends (call_within start_block end_block stepping_) n st
            (snd (body v st)).
Proof.
  intros Hv.
  destruct (signaled_to_exit (world st)) eqn:Hs.
  - rewrite loop_body_stop by exact Hs. exists O. apply appends_refl.
  - assert (Ht : appends (call_within start_block end_block stepping_) 1 st
                         (snd (poll_timer start_block end_block v st))).
    { unfold poll_timer, bind, lift, poke, Info_print, emit, ret.
      destruct (signals_dec_SIGALRM (world st)) as [[|] w]; cbn [snd].
      - eexists [_]; cbn [log]; repeat split; auto.
        constructor; [exact I | constructor].
      - exists []; cbn [log]; rewrite app_nil_r; repeat split; auto. }
    pose proof (burn_block_calls stepping_ (lv_block v) (lv_buf v) buflen_
                  (u64 retries) patterns
                  (snd (poll_timer start_block end_block v st))) as Hc.
    destruct (burn_block stepping_ (lv_block v) (lv_buf v) buflen_
                (u64 retries) patterns
                (snd (poll_timer start_block end_block v st)))
      as [[rv buf] st2] eqn:Hb.
    cbn [snd] in Hc.
    apply (appends_impl _ (call_within start_block end_block stepping_))
      in Hc.
    2:{ intros [b c r|b c bf r|? ? ? ?]; cbn; intros Hx;
        try contradiction; destruct Hx; subst; auto. }
    pose proof (appends_trans _ _ _ _ _ _ Ht Hc) as H12.
    rewrite (loop_body_run _ _ _ _ _ _ _ v st st2 rv buf Hs Hb); cbv zeta.
    destruct (rv >=? 0); [eexists; exact H12|].
    destruct (rv =? - EINVAL); [eexists; exact H12|].
    eexists. destruct (Z.of_nat _ >? max_errors_); cbn [snd];
      (eapply appends_trans; [exact H12|]);
      (eexists [_]; cbn [log]; repeat split;
       [constructor; [exact I | constructor] | apply Nat.le_refl]).
Qed.

Lemma loop_body_cursor_bounds v (st : St W) :
  0 <= stepping_ -> 0 <= start_block < 2 ^ 64 ->
  logical_block_count < 2 ^ 64 ->
  start_block <= lv_block v <= Z.max start_block logical_block_count ->
  let v1 := flow_vars (fst (body v st)) in
  lv_block v <= lv_block v1 <= Z.max start_block logical_block_count.
Proof.
  intros Hs0 Hstart Hcnt Hv v1. unfold v1.
  destruct (signaled_to_exit (world st)) eqn:Hs.
  - rewrite loop_body_stop by exact Hs. cbn. lia.
  - rewrite (loop_body_cursor _ _ _ _ _ _ _ v st Hs).
    assert (Ht : 0 <= trim_stepping W (lv_block v) stepping_
                 /\ lv_block v + trim_stepping W (lv_block v) stepping_
                    <= Z.max (lv_block v) logical_block_count).
    { unfold trim_stepping.
      destruct (lv_block v >? logical_block_count) eqn:Hp; lia. }
    rewrite u64_small by (pow64; lia). lia.
Qed.

Lemma while_loop_calls fuel :
  0 <= stepping_ -> 0 <= start_block < 2 ^ 64 ->
  logical_block_count < 2 ^ 64 ->
  forall v (st : St W),
    start_block <= lv_block v <= Z.max start_block logical_block_count ->
    (exists n,
        appends (call_within start_block end_block stepping_) n st
                (snd (loop fuel v st))) /\
    (forall v', fst (loop fuel v st) = Some v' ->
                lv_block v <= lv_block v'
                <= Z.max start_block logical_block_count).
Proof.
  intros Hs0 Hstart Hcnt.
  induction fuel as [|fuel IH]; intros v st Hv;
    destruct (lv_block v <? end_block) eqn:Hc;
    try (rewrite while_loop_done by exact Hc; split;
         [exists O; apply appends_refl
         | intros v' Hv'; inversion Hv'; subst; lia]).
  - simpl. rewrite Hc. split; [exists O; apply appends_refl|].
    intros v' Hv'; discriminate.
  - rewrite while_loop_step by exact Hc. apply Z.ltb_lt in Hc.
    destruct (loop_body_calls v st ltac:(lia)) as [n1 H1].
    pose proof (loop_body_cursor_bounds v st Hs0 Hstart Hcnt Hv) as Hb.
    cbv zeta in Hb.
    destruct (body v st) as [[v1|v1] st1]; cbn [fst snd flow_vars] in *.
    + destruct (IH v1 st1 ltac:(lia)) as [[n2 H2] Hcur]. split.
      * exists (n1 + n2)%nat. eapply appends_trans; eassumption.
      * intros v' Hv'. specialize (Hcur v' Hv'). lia.
    + split; [now exists n1|].
      intros v' Hv'; inversion Hv'; subst. lia.
Qed.
End LoopInvariants.

Lemma burnin_loop_unfold {W : Type} {D : BlkDev W} {E : Env W}
      fuel start_block end_block stepping_ buf_ buflen_ badblocks
      max_errors_ retries rv0 (st : St W) :
  burnin_loop fuel start_block end_block stepping_ buf_ buflen_ badblocks
              max_errors_ retries rv0 st
  = let '(r, st1) :=
        while_loop start_block end_block stepping_ buflen_ max_errors_
                   retries (make_patterns buflen_) fuel
                   (mkLV start_block rv0 buf_ badblocks)
                   (mkSt (world st)
                         (log st ++ [EvPrint start_block end_block
                                             start_block badblocks])) in
    match r with
    | None => (None, st1)
    | Some v =>
        (Some v,
         mkSt (world st1)
              (log st1 ++ [EvPrint start_block end_block (lv_block v)
                                   (lv_badblocks v)]))
    end.
Proof.
  unfold burnin_loop, bind, Info_print, emit, ret; cbn [world log].
  destruct (while_loop _ _ _ _ _ _ _ fuel _ _) as [[v|] st1]; reflexivity.
Qed.

(** X3.  Cancellation is polled before anything else in a pass: with a
    termination signal pending the loop is left without a device call and
    with its variables untouched; when the signal is already pending as the
    loop starts, [burnin_loop] only emits its first and its last snapshot
    and returns the status it never assigned. *)
Theorem pending_signal_stops_before_io :
  forall (W : Type) (D : BlkDev W) (E : Env W)
         start_block end_block stepping_ buflen_ max_errors_ retries fuel
         (st : St W),
    signaled_to_exit (world st) = true ->
    (forall patterns v,
        while_loop start_block end_block stepping_ buflen_ max_errors_
                   retries patterns (S fuel) v st
        = (Some v, st)) /\
    (forall buf_ badblocks rv0,
        burnin_loop (S fuel) start_block end_block stepping_ buf_ buflen_
                    badblocks max_errors_ retries rv0 st
        = (Some (mkLV start_block rv0 buf_ badblocks),
           mkSt (world st)
                (log st ++ [EvPrint start_block end_block start_block
                                    badblocks;
                            EvPrint start_block end_block start_block
                                    badblocks]))).
Proof.
  intros W D E start_block end_block stepping_ buflen_ max_errors_ retries
         fuel st Hs.
  split.
  - intros patterns v. now apply while_loop_stop.
  - intros buf_ badblocks rv0. rewrite burnin_loop_unfold.
    rewrite while_loop_stop by exact Hs. cbn [world log lv_block lv_badblocks].
    now rewrite <- app_assoc.
Qed.

(** A healthy disk of eight blocks with a termination signal pending. *)
Lemma pending_signal_stops_before_io_witness :
  let w := Sim.mkWorld (repeat x11 8) [] false true None 0 in
  burnin_loop (D := Sim.dev 8 4) (E := Sim.env) 3 0 8 4 (repeat x00 4) 4
              [7] 5 2 (-9) (Sim.start w)
  = (Some (mkLV 0 (-9) (repeat x00 4) [7]),
     mkSt w [EvPrint 0 8 0 [7]; EvPrint 0 8 0 [7]]).
Proof.
  intros w.
  apply (proj2 (pending_signal_stops_before_io
                  Sim.World (Sim.dev 8 4) Sim.env 0 8 4 4 5 2 2%nat
                  (Sim.start w) eq_refl)).
Defined.

(** X4.  When the effective range is empty (the aligned end block is not
    above the aligned start block, as for a start block at or beyond the end
    of the device) [burnin] makes no device call, keeps the list, and its
    result is decided by the status variable that the loop never assigned:
    success if that value is non-negative, a runtime error otherwise. *)
Theorem empty_range_returns_unassigned_status :
  forall (W : Type) (D : BlkDev W) (E : Env W) fuel opts badblocks buf0 rv0
         (st : St W),
    burnin_end_block W opts <= burnin_start_block W opts ->
    let snapshot :=
      EvPrint (burnin_start_block W opts) (burnin_end_block W opts)
              (burnin_start_block W opts) badblocks in
    burnin_dev fuel opts badblocks buf0 rv0 st
    = (Some (if rv0 <? 0
             then AppError.runtime (- rv0)
                                   "error when performing burnin"%string
             else AppError.success,
             badblocks),
       mkSt (signals_alarm 1 (world st)) (log st ++ [snapshot; snapshot])).
Proof.
  intros W D E fuel opts badblocks buf0 rv0 st Hempty snapshot.
  rewrite burnin_dev_unfold, burnin_loop_unfold.
  rewrite while_loop_done by (cbn [lv_block]; apply Z.ltb_ge; exact Hempty).
  cbn [world log lv_block lv_badblocks lv_rv]. fold snapshot.
  now rewrite <- app_assoc.
Qed.

Lemma empty_range_returns_unassigned_status_witness :
  burnin_dev (D := Sim.dev 100 100) (E := Sim.env) 0
             (Sim.options 150 160 0 2 5) [] (repeat x00 100) (-7)
             (Sim.start (Sim.healthy 100))
  = (Some (AppError.runtime 7 "error when performing burnin"%string, []),
     mkSt (Sim.healthy 100) [EvPrint 100 100 100 []; EvPrint 100 100 100 []]).
Proof.
  apply (empty_range_returns_unassigned_status
           Sim.World (Sim.dev 100 100) Sim.env 0%nat
           (Sim.options 150 160 0 2 5) [] (repeat x00 100) (-7)
           (Sim.start (Sim.healthy 100))).
  now vm_compute.
Defined.

(** X5.  The loop never drops or reorders an address: the list it returns
    is the list it was given followed by the addresses it pushed. *)
Theorem bad_block_list_only_grows :
  forall (W : Type) (D : BlkDev W) (E : Env W)
         fuel start_block end_block stepping_ buf_ buflen_ badblocks
         max_errors_ retries rv0 (st st' : St W) v,
    burnin_loop fuel start_block end_block stepping_ buf_ buflen_ badblocks
                max_errors_ retries rv0 st
    = (Some v, st') ->
    exists added, lv_badblocks v = badblocks ++ added.
Proof.
  intros W D E fuel start_block end_block stepping_ buf_ buflen_ badblocks
         max_errors_ retries rv0 st st' v Hrun.
  rewrite burnin_loop_unfold in Hrun.
  destruct (while_loop _ _ _ _ _ _ _ fuel _ _) as [[v1|] st1] eqn:Hloop;
    [|discriminate].
  inversion Hrun; subst v1.
  exact (while_loop_keeps_list _ _ _ _ _ _ _ _ _ _ _ _ Hloop).
Qed.

Lemma bad_block_list_only_grows_witness :
  exists added,
    Sim.range 0 60 ++ Sim.range 400 100 = Sim.range 0 60 ++ added.
Proof.
  apply (bad_block_list_only_grows
           Sim.World (Sim.dev 1000 100) Sim.env 10%nat 0 1000 100
           (repeat x00 100) 100 (Sim.range 0 60) 150 2 0
           (Sim.start (limit_disk []))
           (snd (burnin_loop (D := Sim.dev 1000 100) (E := Sim.env) 10 0 1000
                             100 (repeat x00 100) 100 (Sim.range 0 60) 150 2
                             0 (Sim.start (limit_disk []))))
           (mkLV 400 (- EIO) (repeat x11 100)
                 (Sim.range 0 60 ++ Sim.range 400 100))).
  now vm_compute.
Defined.

Lemma while_loop_out_of_fuel {W : Type} {D : BlkDev W} {E : Env W}
      start_block end_block stepping_ buflen_ max_errors_ retries patterns
      v (st : St W) :
  (lv_block v <? end_block) = true ->
  while_loop start_block end_block stepping_ buflen_ max_errors_ retries
             patterns 0 v st
  = (None, st).
Proof. intros Hc; simpl; now rewrite Hc. Qed.

(** X6.  Only failing writes make bad blocks: on a device whose writes never
    fail the run records nothing, whatever its reads do.  The status it
    returns is non-negative whenever a batch was tested, that is when the
    range is not empty and no signal is pending as the loop starts; when
    the range is empty or a signal is pending at the start it is the value
    the status variable had before the loop. *)
Theorem writable_device_records_nothing :
  forall (W : Type) (D : BlkDev W) (E : Env W)
         fuel start_block end_block stepping_ buf_ buflen_ badblocks
         max_errors_ retries rv0 (st st' : St W) v,
    (forall b c buf len w, 0 <= fst (dev_write b c buf len w)) ->
    burnin_loop fuel start_block end_block stepping_ buf_ buflen_ badblocks
                max_errors_ retries rv0 st
    = (Some v, st') ->
    lv_badblocks v = badblocks /\
    (0 <= lv_rv v \/ lv_rv v = rv0) /\
    (start_block < end_block -> signaled_to_exit (world st) = false ->
     0 <= lv_rv v) /\
    (end_block <= start_block \/ signaled_to_exit (world st) = true ->
     lv_rv v = rv0).
Proof.
  intros W D E fuel start_block end_block stepping_ buf_ buflen_ badblocks
         max_errors_ retries rv0 st st' v Hw Hrun.
  rewrite burnin_loop_unfold in Hrun.
  set (v0 := mkLV start_block rv0 buf_ badblocks) in *.
  set (st0 := mkSt (world st) _) in *.
  destruct (while_loop _ _ _ _ _ _ _ fuel v0 st0) as [[v1|] st1] eqn:Hloop;
    [|discriminate].
  inversion Hrun; subst v1.
  destruct (while_loop_writable _ _ _ _ _ _ _ Hw _ _ _ _ _ Hloop)
    as [Hlist Hstatus].
  split; [exact Hlist|]. split; [exact Hstatus|]. split.
  - intros Hrange Hsig.
    assert (Hc : (lv_block v0 <? end_block) = true)
      by (apply Z.ltb_lt; exact Hrange).
    destruct fuel as [|fuel];
      [rewrite while_loop_out_of_fuel in Hloop by exact Hc; discriminate|].
    rewrite while_loop_step in Hloop by exact Hc.
    pose proof (burn_block_status_writable stepping_ buflen_ retries
                  (make_patterns buflen_) Hw (lv_block v0) (lv_buf v0)
                  (snd (poll_timer start_block end_block v0 st0))) as Hrv.
    destruct (burn_block stepping_ (lv_block v0) (lv_buf v0) buflen_
                (u64 retries) (make_patterns buflen_)
                (snd (poll_timer start_block end_block v0 st0)))
      as [[rv buf] st2] eqn:Hb.
    cbn [fst] in Hrv.
    rewrite (loop_body_run _ _ _ _ _ _ _ v0 st0 st2 rv buf Hsig Hb) in Hloop.
    cbv zeta in Hloop.
    assert (Hge : (rv >=? 0) = true) by (apply Z.geb_le; lia).
    rewrite Hge in Hloop.
    destruct (while_loop_writable _ _ _ _ _ _ _ Hw _ _ _ _ _ Hloop)
      as [_ [Hpos|Hsame]]; [exact Hpos | cbn in Hsame; lia].
  - intros [Hempty|Hsig].
    + rewrite while_loop_done in Hloop
        by (apply Z.ltb_ge; exact Hempty).
      inversion Hloop; subst v. reflexivity.
    + destruct fuel as [|fuel].
      * destruct (lv_block v0 <? end_block) eqn:Hc;
          [rewrite while_loop_out_of_fuel in Hloop by exact Hc;
           discriminate|].
        rewrite while_loop_done in Hloop by exact Hc.
        inversion Hloop; subst v. reflexivity.
      * rewrite while_loop_stop in Hloop by exact Hsig.
        inversion Hloop; subst v. reflexivity.
Qed.

Lemma writable_device_records_nothing_witness :
  let v := mkLV 8 0 (repeat x00 4) [] in
  burnin_loop (D := sink_dev 8 4) (E := quiet_env) 5 0 8 4 (repeat x11 4) 4
              [] 5 2 (-1) (mkSt tt [])
  = (Some v,
     snd (burnin_loop (D := sink_dev 8 4) (E := quiet_env) 5 0 8 4
                      (repeat x11 4) 4 [] 5 2 (-1) (mkSt tt []))) /\
  lv_badblocks v = [] /\ 0 <= lv_rv v.
Proof.
  intros v.
  assert (Hrun :
            burnin_loop (D := sink_dev 8 4) (E := quiet_env) 5 0 8 4
                        (repeat x11 4) 4 [] 5 2 (-1) (mkSt tt [])
            = (Some v,
               snd (burnin_loop (D := sink_dev 8 4) (E := quiet_env) 5 0 8 4
                                (repeat x11 4) 4 [] 5 2 (-1) (mkSt tt []))))
    by now vm_compute.
  split; [exact Hrun|].
  assert (Hw : forall b c buf len w,
             0 <= fst (dev_write (BlkDev := sink_dev 8 4) b c buf len w))
    by (intros b c buf len w; simpl; lia).
  destruct (writable_device_records_nothing
              unit (sink_dev 8 4) quiet_env 5%nat 0 8 4 (repeat x11 4) 4 [] 5
              2 (-1) (mkSt tt [])
              (snd (burnin_loop (D := sink_dev 8 4) (E := quiet_env) 5 0 8 4
                                (repeat x11 4) 4 [] 5 2 (-1) (mkSt tt [])))
              v Hw Hrun) as (Hlist & _ & Htested & _).
  split; [exact Hlist|].
  apply Htested; reflexivity.
Defined.

(** X7.  The loop stays inside its range: for a non-negative stepping and a
    start block that fits 64 bits, every device call of [burnin_loop] is a
    read or write of [stepping_] blocks that starts at a block in
    [[start_block, end_block)], and the cursor it returns lies between the
    start block and the larger of the start block and the block count. *)
Theorem loop_calls_stay_in_range :
  forall (W : Type) (D : BlkDev W) (E : Env W)
         fuel start_block end_block stepping_ buf_ buflen_ badblocks
         max_errors_ retries rv0 (st : St W),
    0 <= stepping_ -> 0 <= start_block < 2 ^ 64 ->
    logical_block_count < 2 ^ 64 ->
    let r := burnin_loop fuel start_block end_block stepping_ buf_ buflen_
                         badblocks max_errors_ retries rv0 st in
    (exists evs,
        log (snd r) = log st ++ evs /\
        Forall (call_within start_block end_block stepping_) evs) /\
    (forall v, fst r = Some v ->
               start_block <= lv_block v
               <= Z.max start_block logical_block_count).
Proof.
  intros W D E fuel start_block end_block stepping_ buf_ buflen_ badblocks
         max_errors_ retries rv0 st Hs0 Hstart Hcnt r.
  unfold r. rewrite burnin_loop_unfold.
  set (st0 := mkSt (world st) _).
  destruct (while_loop_calls start_block end_block stepping_ buflen_
              max_errors_ retries (make_patterns buflen_) fuel Hs0 Hstart
              Hcnt (mkLV start_block rv0 buf_ badblocks) st0)
    as [[n (evs & Hlog & Hall & _)] Hcur]; [cbn [lv_block]; lia|].
  destruct (while_loop _ _ _ _ _ _ _ fuel _ st0) as [[v1|] st1];
    cbn [fst snd] in *.
  - split.
    + eexists. split.
      * cbn [log]. rewrite Hlog. unfold st0; cbn [log].
        rewrite <- !app_assoc. reflexivity.
      * constructor; [exact I|]. apply Forall_app. split; [exact Hall|].
        constructor; [exact I | constructor].
    + intros v Hv; inversion Hv; subst v1.
      specialize (Hcur v eq_refl). cbn [lv_block] in Hcur. exact Hcur.
  - split; [|intros v Hv; discriminate].
    eexists. split.
    + rewrite Hlog. unfold st0; cbn [log]. rewrite <- app_assoc. reflexivity.
    + constructor; [exact I | exact Hall].
Qed.

Lemma loop_calls_stay_in_range_witness :
  let r := burnin_loop (D := Sim.dev 1000 100) (E := Sim.env) 10 100 300 100
                       (repeat x00 100) 100 [] 5 2 0
                       (Sim.start (Sim.healthy 1000)) in
  (exists evs,
      log (snd r) = log (Sim.start (Sim.healthy 1000)) ++ evs /\
      Forall (call_within 100 300 100) evs) /\
  (forall v, fst r = Some v -> 100 <= lv_block v <= Z.max 100 1000).
Proof.
  apply (loop_calls_stay_in_range
           Sim.World (Sim.dev 1000 100) Sim.env 10%nat 100 300 100
           (repeat x00 100) 100 [] 5 2 0 (Sim.start (Sim.healthy 1000))).
  - discriminate.
  - split; [discriminate | reflexivity].
  - reflexivity.
Defined.

(** ** [burnin(opts)]: aborting, saving and closing *)

(** X8.  [burnin] gives up before any device I/O or file access when the
    device cannot be opened or the captcha does not match: the log is
    unchanged and the world is the one the open left (in the captcha case
    the device is not closed by [burnin]). *)
Theorem burnin_aborts_before_io :
  forall (W : Type) (D : BlkDev W) (E : Env W) fuel opts buf0 rv0
         (st : St W) rv w1,
    dev_open_rdwr (opt_device opts) (negb (opt_force opts)) (world st)
    = (rv, w1) ->
    (rv < 0 ->
     burnin fuel opts buf0 rv0 st
     = (Some (AppError.opening_device (- rv) (opt_device opts)),
        mkSt w1 (log st))) /\
    (0 <= rv -> opt_captcha opts <> captcha_calculate w1 ->
     burnin fuel opts buf0 rv0 st
     = (Some (AppError.captcha (opt_captcha opts) (captcha_calculate w1)),
        mkSt w1 (log st))).
Proof.
  intros W D E fuel opts buf0 rv0 st rv w1 Hopen.
  unfold burnin, bind, lift, peek, ret. rewrite Hopen. cbn [world log].
  split.
  - intros Hrv. apply Z.ltb_lt in Hrv. now rewrite Hrv.
  - intros Hrv Hcap. apply Z.ltb_ge in Hrv. rewrite Hrv.
    apply String.eqb_neq in Hcap. cbn [world log]. now rewrite Hcap.
Qed.

Lemma burnin_aborts_before_io_witness :
  let opts := Opts.with_captcha "guess" (Sim.options 0 8 0 2 5) in
  burnin (D := Sim.dev 8 4) (E := Sim.env) 10 opts (repeat x00 4) 0
         (Sim.start (Sim.healthy 8))
  = (Some (AppError.captcha "guess" "sim"), mkSt (Sim.healthy 8) []).
Proof.
  intros opts.
  apply (proj2 (burnin_aborts_before_io
                  Sim.World (Sim.dev 8 4) Sim.env 10%nat opts (repeat x00 4)
                  0 (Sim.start (Sim.healthy 8)) 0 (Sim.healthy 8) eq_refl)).
  - discriminate.
  - discriminate.
Defined.

(** X9.  After a run the list is always saved and the device always
    closed, whatever the run returned; of the three statuses the earliest
    failure is the one reported: the run's error, else the save error, else
    the close error. *)
Theorem save_and_close_reports_first_failure :
  forall (W : Type) (D : BlkDev W) (E : Env W) output_file device err
         badblocks (st : St W) rvs w1 rvc w2,
    BadBlockFile_write output_file badblocks (world st) = (rvs, w1) ->
    dev_close w1 = (rvc, w2) ->
    save_and_close output_file device err badblocks st
    = (if negb (AppError.succeeded err) then err
       else if rvs <? 0
            then AppError.writing_badblocks_file (- rvs) output_file
            else if rvc <? 0 then AppError.closing_device (- rvc) device
                 else AppError.success,
       mkSt w2 (log st)).
Proof.
  intros W D E output_file device err badblocks st rvs w1 rvc w2 Hsave Hclose.
  unfold save_and_close, bind, lift, ret. rewrite Hsave. cbn [world log].
  rewrite Hclose.
  destruct err; cbn [AppError.succeeded negb]; rewrite ?andb_false_r;
    try reflexivity.
  rewrite !andb_true_r.
  destruct (rvs <? 0); cbn [AppError.succeeded]; rewrite ?andb_false_r;
    [reflexivity|].
  rewrite andb_true_r. reflexivity.
Qed.

Lemma save_and_close_reports_first_failure_witness :
  save_and_close (D := Sim.dev 8 4) (E := Sim.env) "out.bbf" "/dev/sim"
                 (AppError.runtime 5 "error when performing burnin") [3]
                 (Sim.start unsavable_disk)
  = (AppError.runtime 5 "error when performing burnin",
     mkSt unsavable_disk []).
Proof.
  apply (save_and_close_reports_first_failure
           Sim.World (Sim.dev 8 4) Sim.env "out.bbf" "/dev/sim"
           (AppError.runtime 5 "error when performing burnin") [3]
           (Sim.start unsavable_disk) (- EIO) unsavable_disk 0
           unsavable_disk).
  - reflexivity.
  - reflexivity.
Defined.

(** * Properties of the command-line options *)

Ltac split_eqb :=
  match goal with
  | H : context [String.eqb ?x ?y] |- _ => destruct (String.eqb_spec x y)
  | |- context [String.eqb ?x ?y] => destruct (String.eqb_spec x y)
  end.

Lemma string_empty_false (s : string) :
  string_empty s = false <-> s <> ""%string.
Proof. destruct s; simpl; split; congruence. Qed.

(** X10.  The nine instruction names denote nine different instructions:
    two strings that yield the same valid instruction are the same string,
    and every instruction other than [_INVALID] has a name. *)
Theorem instr_from_string_names :
  (forall a b,
      Opts.instr_from_string a = Opts.instr_from_string b ->
      Opts.instr_from_string a <> Opts._INVALID ->
      a = b) /\
  (forall i, i <> Opts._INVALID -> exists s, Opts.instr_from_string s = i).
Proof.
  split.
  - intros a b Hab Hvalid. unfold Opts.instr_from_string in *.
    repeat (split_eqb; try congruence).
  - intros i Hi.
    destruct i;
      [ congruence
      | exists "info"%string | exists "captcha"%string
      | exists "scan"%string | exists "fix"%string
      | exists "burnin"%string | exists "find-files"%string
      | exists "dump-files"%string | exists "file-blocks"%string
      | exists "write-uncorrectable"%string ];
      reflexivity.
Qed.

Lemma instr_from_string_names_witness :
  exists s, Opts.instr_from_string s = Opts.FILE_BLOCKS.
Proof.
  apply (proj2 instr_from_string_names Opts.FILE_BLOCKS). discriminate.
Defined.

(** X11.  [validate] accepts exactly the options with a known instruction,
    a start block below the end block (whatever the instruction, also for
    [info] and [captcha]), a captcha for [burnin], [fix] and
    [write-uncorrectable], an output file for [burnin] and [scan], and an
    input file for [fix], [write-uncorrectable] and [find-files]. *)
Theorem validate_accepts_iff :
  forall o : Opts.t,
    Opts.validate o = Opts.success <->
    Opts.instruction o <> Opts._INVALID /\
    opt_start_block (Opts.base o) < opt_end_block (Opts.base o) /\
    (Opts.needs_captcha (Opts.instruction o) = true ->
     opt_captcha (Opts.base o) <> ""%string) /\
    (Opts.needs_output_file (Opts.instruction o) = true ->
     opt_output_file (Opts.base o) <> ""%string) /\
    (Opts.needs_input_file (Opts.instruction o) = true ->
     opt_input_file (Opts.base o) <> ""%string).
Proof.
  intros [i q b]. unfold Opts.validate. cbn [Opts.instruction Opts.base].
  destruct (opt_start_block b >=? opt_end_block b) eqn:Hr;
    [rewrite Z.geb_leb in Hr; apply Z.leb_le in Hr
    |rewrite Z.geb_leb in Hr; apply Z.leb_gt in Hr];
    destruct (opt_captcha b), (opt_output_file b), (opt_input_file b);
    destruct i; cbn;
    (split;
     [ intros Hv; try discriminate Hv;
       repeat split; try lia; try discriminate; intros; discriminate
     | intros (Hi & Hlt & Hc & Ho & Hin); try reflexivity; exfalso;
       try lia; try (now apply Hi); try (now apply Hc);
       try (now apply Ho); try (now apply Hin) ]).
Qed.

Lemma validate_accepts_iff_witness :
  Opts.validate (Opts.mk Opts.BURNIN 0 (Sim.options 0 8 0 2 5))
  = Opts.success.
Proof.
  apply (proj2 (validate_accepts_iff
                  (Opts.mk Opts.BURNIN 0 (Sim.options 0 8 0 2 5)))).
  cbn. repeat split; try discriminate; reflexivity.
Defined.

Lemma validate_burnin_inv (o : Opts.t) :
  Opts.validate o = Opts.success ->
  Opts.instruction o = Opts.BURNIN ->
  string_empty (opt_captcha (Opts.base o)) = false /\
  string_empty (opt_output_file (Opts.base o)) = false /\
  opt_start_block (Opts.base o) < opt_end_block (Opts.base o).
Proof.
  destruct o as [i q b]; cbn [Opts.instruction Opts.base].
  intros Hv Hi; subst i. unfold Opts.validate in Hv.
  cbn [Opts.instruction Opts.base] in Hv.
  destruct (string_empty (opt_captcha b)); [discriminate|].
  destruct (string_empty (opt_output_file b)); [discriminate|].
  destruct (opt_start_block b >=? opt_end_block b) eqn:Hr; [discriminate|].
  rewrite Z.geb_leb in Hr; apply Z.leb_gt in Hr. auto.
Qed.

(** X12.  For options that [validate] accepted for [burnin] the output file
    is never empty, so the device's default bad-block file path is never
    used: the whole run is the same whatever [BadBlockFile::filepath]
    would return. *)
Theorem validated_burnin_ignores_default_path :
  forall (W : Type) (D : BlkDev W) (E : Env W) (path : W -> string)
         fuel (o : Opts.t) buf0 rv0 (st : St W),
    Opts.validate o = Opts.success ->
    Opts.instruction o = Opts.BURNIN ->
    burnin (E := with_filepath E path) fuel (Opts.base o) buf0 rv0 st
    = burnin (E := E) fuel (Opts.base o) buf0 rv0 st.
Proof.
  intros W D E path fuel o buf0 rv0 st Hv Hi.
  destruct (validate_burnin_inv o Hv Hi) as (_ & Hout & _).
  unfold burnin, bind, lift, peek, poke, ret.
  cbn [with_filepath captcha_calculate BadBlockFile_filepath
       BadBlockFile_read set_rw].
  rewrite Hout. reflexivity.
Qed.

Lemma validated_burnin_ignores_default_path_witness :
  let o := Opts.mk Opts.BURNIN 0 (Sim.options 0 8 0 2 5) in
  burnin (D := Sim.dev 8 4)
         (E := with_filepath Sim.env (fun _ => "elsewhere"%string)) 10
         (Opts.base o) (repeat x00 4) 0 (Sim.start (Sim.healthy 8))
  = burnin (D := Sim.dev 8 4) (E := Sim.env) 10 (Opts.base o)
           (repeat x00 4) 0 (Sim.start (Sim.healthy 8)).
Proof.
  intros o.
  apply (validated_burnin_ignores_default_path
           Sim.World (Sim.dev 8 4) Sim.env (fun _ => "elsewhere"%string)
           10%nat o (repeat x00 4) 0 (Sim.start (Sim.healthy 8)));
    reflexivity.
Defined.

(** ** The parser *)

Section ParserFacts.
Variable strtol : string -> Z * Z.
Variable strtoull : string -> Z * Z.
Variable to_retries : Z -> Z.

Local Abbreviation process_arg :=
  (Opts.process_arg strtol strtoull to_retries).
Local Abbreviation process_args :=
  (Opts.process_args strtol strtoull to_retries).

Lemma process_arg_untouched argv_prev optarg opt o :
  untouched o (snd (process_arg argv_prev optarg opt o)).
Proof.
  unfold Opts.process_arg, untouched.
  destruct (strtol optarg) as [vl el], (strtoull optarg) as [vu eu].
  repeat match goal with
         | |- context [if ?c then _ else _] => destruct c
         end;
    cbn; auto.
Qed.

Lemma process_arg_retries argv_prev optarg opt o o' :
  process_arg argv_prev optarg opt o = (Opts.success, o') ->
  1 <= opt_retries (Opts.base o) ->
  1 <= opt_retries (Opts.base o').
Proof.
  unfold Opts.process_arg.
  destruct (strtol optarg) as [vl el], (strtoull optarg) as [vu eu].
  destruct (Ascii.eqb opt "q"); [intros Hp; inversion Hp; subst; now cbn|].
  destruct (Ascii.eqb opt "r").
  { destruct (to_retries vl <? 1) eqn:Hlt.
    - rewrite orb_true_r. discriminate.
    - apply Z.ltb_ge in Hlt.
      destruct (_ || _); intros Hp; inversion Hp; subst. now cbn. }
  repeat match goal with
         | |- context [if ?c then _ else _] => destruct c
         end;
    intros Hp; inversion Hp; subst; now cbn.
Qed.

Lemma process_args_untouched args :
  forall o, untouched o (snd (process_args args o)).
Proof.
  induction args as [|a rest IH]; intros o; cbn [Opts.process_args].
  - cbn; unfold untouched; auto.
  - pose proof (process_arg_untouched (Opts.p_argv_prev a) (Opts.p_optarg a)
                                      (Opts.p_opt a) o) as H1.
    destruct (process_arg _ _ _ o) as [e o1]. cbn [snd] in H1.
    destruct (negb (Opts.succeeded e)); cbn [snd]; [exact H1|].
    specialize (IH o1). unfold untouched in *.
    destruct H1 as (? & ? & ? & ? & ?), IH as (? & ? & ? & ? & ?).
    repeat split; congruence.
Qed.

Lemma process_args_retries args :
  forall o o',
    process_args args o = (Opts.success, o') ->
    1 <= opt_retries (Opts.base o) ->
    1 <= opt_retries (Opts.base o').
Proof.
  induction args as [|a rest IH]; intros o o' Hp Hr;
    cbn [Opts.process_args] in Hp.
  - inversion Hp; subst; exact Hr.
  - destruct (process_arg _ _ _ o) as [e o1] eqn:H1.
    destruct e; cbn [Opts.succeeded negb] in Hp; try discriminate.
    eapply IH; [exact Hp|]. eapply process_arg_retries; eassumption.
Qed.

Lemma process_args_refused pre :
  forall a post o o1 e o2,
    process_args pre o = (Opts.success, o1) ->
    process_arg (Opts.p_argv_prev a) (Opts.p_optarg a) (Opts.p_opt a) o1
    = (e, o2) ->
    e <> Opts.success ->
    process_args (pre ++ a :: post) o = (e, o2).
Proof.
  induction pre as [|p pre IH]; intros a post o o1 e o2 Hpre Ha He.
  - cbn in Hpre; inversion Hpre; subst o1.
    cbn [app Opts.process_args]. rewrite Ha.
    destruct e; [congruence | reflexivity | reflexivity].
  - cbn [app Opts.process_args] in Hpre |- *.
    destruct (process_arg _ _ _ o) as [e1 o'].
    destruct e1; cbn [Opts.succeeded negb] in Hpre |- *; try discriminate.
    eapply IH; eassumption.
Qed.
End ParserFacts.


Lemma validate_success_inv (o : Opts.t) :
  Opts.validate o = Opts.success ->
  Opts.instruction o <> Opts._INVALID /\
  opt_start_block (Opts.base o) < opt_end_block (Opts.base o).
Proof.
  destruct o as [i q b]; unfold Opts.validate;
    cbn [Opts.instruction Opts.base].
  destruct (opt_start_block b >=? opt_end_block b) eqn:Hr.
  - destruct i; try discriminate;
      repeat match goal with
             | |- context [if ?c then _ else _] => destruct c
             end; discriminate.
  - rewrite Z.geb_leb in Hr; apply Z.leb_gt in Hr.
    intros Hv; split; [|exact Hr]. intros Hi; subst i. discriminate.
Qed.

(** X13.  Parsing keeps the retry count positive: if it is at least 1
    before, it is at least 1 in whatever [parse] accepts, since [-r] refuses
    every value below 1 and nothing else sets it. *)
Theorem parse_keeps_retries_positive :
  forall strtol strtoull to_retries argc argv args optind o o',
    1 <= opt_retries (Opts.base o) ->
    Opts.parse strtol strtoull to_retries argc argv args optind o
    = (Opts.success, o') ->
    1 <= opt_retries (Opts.base o').
Proof.
  intros strtol strtoull to_retries argc argv args optind o o' Hr.
  unfold Opts.parse.
  destruct (argc =? 1); [intros Hp; inversion Hp; subst; exact Hr|].
  destruct (Opts.process_args _ _ _ args o) as [e o1] eqn:Hargs.
  destruct e; cbn [Opts.succeeded negb]; try discriminate.
  destruct (argc =? optind); [discriminate|].
  destruct (argc =? optind + 1); [discriminate|].
  intros Hp; inversion Hp; subst; cbn.
  eapply process_args_retries; eassumption.
Qed.

Lemma parse_keeps_retries_positive_witness :
  let o := Opts.mk Opts._INVALID 0 (Sim.options 0 8 0 1 5) in
  let r := Opts.parse toy_strtol toy_strtol (fun v => v) 6
                      ["bbf"; "-r"; "3"; "-csim"; "burnin"; "/dev/sim"]%string
                      [Opts.mkParsed "r" "3" "3"; Opts.mkParsed "c" "sim" "-csim"]
                      4 o in
  fst r = Opts.success /\ 1 <= opt_retries (Opts.base (snd r)).
Proof.
  intros o r. split; [reflexivity|].
  apply (parse_keeps_retries_positive
           toy_strtol toy_strtol (fun v => v) 6
           ["bbf"; "-r"; "3"; "-csim"; "burnin"; "/dev/sim"]%string
           [Opts.mkParsed "r" "3" "3"; Opts.mkParsed "c" "sim" "-csim"]
           4 o (snd r)).
  - cbn. lia.
  - reflexivity.
Defined.

(** X14.  No command-line option sets the stepping, the maximum number of
    bad blocks or the force flag: whatever [parse] returns, these three
    fields are as they were. *)
Theorem parse_never_sets_stepping_or_limit :
  forall strtol strtoull to_retries argc argv args optind o,
    let o' :=
      snd (Opts.parse strtol strtoull to_retries argc argv args optind o) in
    opt_stepping (Opts.base o') = opt_stepping (Opts.base o) /\
    opt_max_errors (Opts.base o') = opt_max_errors (Opts.base o) /\
    opt_force (Opts.base o') = opt_force (Opts.base o).
Proof.
  intros strtol strtoull to_retries argc argv args optind o.
  unfold Opts.parse.
  destruct (argc =? 1); [cbn; auto|].
  pose proof (process_args_untouched strtol strtoull to_retries args o) as Hu.
  destruct (Opts.process_args _ _ _ args o) as [e o1]. cbn [snd] in Hu.
  destruct Hu as (_ & _ & Hf & Hs & Hm).
  destruct (negb (Opts.succeeded e)); [cbn; auto|].
  destruct (argc =? optind); [cbn; auto|].
  destruct (argc =? optind + 1); cbn; auto.
Qed.

(** X15.  Except for the call without any argument, which succeeds without
    looking at anything, options that [parse] accepts have passed
    [validate]: their instruction is the one named by the first positional
    argument and is a known one, the device is the second positional
    argument, and the start block is below the end block. *)
Theorem parse_success_is_validated :
  forall strtol strtoull to_retries argc argv args optind o o',
    argc <> 1 ->
    Opts.parse strtol strtoull to_retries argc argv args optind o
    = (Opts.success, o') ->
    Opts.validate o' = Opts.success /\
    Opts.instruction o'
    = Opts.instr_from_string (nth (Z.to_nat optind) argv ""%string) /\
    Opts.instruction o' <> Opts._INVALID /\
    opt_device (Opts.base o') = nth (Z.to_nat (optind + 1)) argv ""%string /\
    opt_start_block (Opts.base o') < opt_end_block (Opts.base o').
Proof.
  intros strtol strtoull to_retries argc argv args optind o o' Hargc.
  unfold Opts.parse.
  destruct (argc =? 1) eqn:H1; [apply Z.eqb_eq in H1; contradiction|].
  destruct (Opts.process_args _ _ _ args o) as [e o1].
  destruct e; cbn [Opts.succeeded negb]; try discriminate.
  destruct (argc =? optind); [discriminate|].
  destruct (argc =? optind + 1); [discriminate|].
  intros Hp; inversion Hp as [[Hv Ho]].
  rewrite Hv. destruct (validate_success_inv _ Hv) as [Hi Hlt].
  repeat split; try assumption; reflexivity.
Qed.

Lemma parse_success_is_validated_witness :
  let o := Opts.mk Opts._INVALID 0 (Sim.options 0 8 0 1 5) in
  let o' :=
    snd (Opts.parse toy_strtol toy_strtol (fun v => v) 6
                    ["bbf"; "-s"; "100"; "-e200"; "info"; "/dev/sim"]%string
                    [Opts.mkParsed "s" "100" "100";
                     Opts.mkParsed "e" "200" "-e200"]
                    4 o) in
  Opts.validate o' = Opts.success /\
  Opts.instruction o' = Opts.instr_from_string "info" /\
  Opts.instruction o' <> Opts._INVALID /\
  opt_device (Opts.base o') = "/dev/sim"%string /\
  opt_start_block (Opts.base o') < opt_end_block (Opts.base o').
Proof.
  intros o o'.
  apply (parse_success_is_validated
           toy_strtol toy_strtol (fun v => v) 6
           ["bbf"; "-s"; "100"; "-e200"; "info"; "/dev/sim"]%string
           [Opts.mkParsed "s" "100" "100"; Opts.mkParsed "e" "200" "-e200"]
           4 o o').
  - discriminate.
  - reflexivity.
Defined.

(** X16.  The first option that is refused ends the parsing: its error is
    the result, with the options as that option left them, and what follows
    it on the command line is never processed. *)
Theorem first_refused_option_stops_parsing :
  forall strtol strtoull to_retries argc argv pre a post optind o o1 e o2,
    argc <> 1 ->
    Opts.process_args strtol strtoull to_retries pre o = (Opts.success, o1) ->
    Opts.process_arg strtol strtoull to_retries (Opts.p_argv_prev a)
                     (Opts.p_optarg a) (Opts.p_opt a) o1
    = (e, o2) ->
    e <> Opts.success ->
    Opts.parse strtol strtoull to_retries argc argv (pre ++ a :: post)
               optind o
    = (e, o2).
Proof.
  intros strtol strtoull to_retries argc argv pre a post optind o o1 e o2
         Hargc Hpre Ha He.
  unfold Opts.parse.
  destruct (argc =? 1) eqn:H1; [apply Z.eqb_eq in H1; contradiction|].
  rewrite (process_args_refused strtol strtoull to_retries pre a post o o1 e
                                o2 Hpre Ha He).
  destruct e; [congruence | reflexivity | reflexivity].
Qed.

Lemma first_refused_option_stops_parsing_witness :
  let o := Opts.mk Opts._INVALID 0 (Sim.options 0 8 0 1 5) in
  Opts.parse toy_strtol toy_strtol (fun v => v) 7
             ["bbf"; "-q"; "-r"; "0"; "-tata"; "info"; "/dev/sim"]%string
             ([Opts.mkParsed "q" "" "-q"]
                ++ Opts.mkParsed "r" "0" "0" :: [Opts.mkParsed "t" "ata" "-tata"])
             5 o
  = (Opts.argument_invalid "retries invalid",
     Opts.mk Opts._INVALID 1 (Sim.options 0 8 0 0 5)).
Proof.
  intros o.
  apply (first_refused_option_stops_parsing
           toy_strtol toy_strtol (fun v => v) 7
           ["bbf"; "-q"; "-r"; "0"; "-tata"; "info"; "/dev/sim"]%string
           [Opts.mkParsed "q" "" "-q"] (Opts.mkParsed "r" "0" "0")
           [Opts.mkParsed "t" "ata" "-tata"] 5 o
           (Opts.mk Opts._INVALID 1 (Sim.options 0 8 0 1 5))).
  - discriminate.
  - reflexivity.
  - reflexivity.
  - discriminate.
Defined.

(** * Retries and alignment *)

Lemma removelast_cons_negative (r : Z) (l : list Z) :
  (l <> [] -> r < 0) ->
  Forall (fun x => x < 0) (removelast l) ->
  Forall (fun x => x < 0) (removelast (r :: l)).
Proof.
  intros Hr Hl. destruct l as [|a l]; [constructor|].
  change (removelast (r :: a :: l)) with (r :: removelast (a :: l)).
  constructor; [apply Hr; discriminate | exact Hl].
Qed.

Lemma retry_write_prefix_fails {W : Type} {D : BlkDev W}
      (n : nat) block count buf buflen :
  forall rv0 (st st' : St W) rv,
    retry_write n rv0 block count buf buflen st = (rv, st') ->
    exists statuses,
      log st' = log st ++ map (EvWrite block count buf) statuses /\
      (length statuses <= n)%nat /\
      (statuses <> [] -> rv0 < 0) /\
      Forall (fun r => r < 0) (removelast statuses).
Proof.
  induction n as [|n IH]; intros rv0 st st' rv Hrun; simpl in Hrun.
  - inversion Hrun; subst. exists []; simpl. rewrite app_nil_r.
    split; [reflexivity|]. split; [apply Nat.le_0_l|].
    split; [intros Hx; now elim Hx | constructor].
  - destruct (rv0 <? 0) eqn:Hneg.
    + unfold bind in Hrun.
      destruct (blkdev_write_log block count buf buflen st) as (r & w & Hw).
      rewrite Hw in Hrun. apply IH in Hrun.
      destruct Hrun as (sts & Hlog & Hlen & Hne & Hall).
      simpl in Hlog. apply Z.ltb_lt in Hneg.
      exists (r :: sts). split; [|split; [|split]].
      * rewrite Hlog, <- app_assoc; reflexivity.
      * simpl; lia.
      * intros _; exact Hneg.
      * now apply removelast_cons_negative.
    + inversion Hrun; subst. exists []; simpl. rewrite app_nil_r.
      split; [reflexivity|]. split; [apply Nat.le_0_l|].
    split; [intros Hx; now elim Hx | constructor].
Qed.

Lemma retry_read_prefix_fails {W : Type} {D : BlkDev W}
      (n : nat) block count buflen :
  forall rv0 buf (st st' : St W) rv buf',
    retry_read n rv0 block count buf buflen st = ((rv, buf'), st') ->
    exists statuses,
      log st' = log st ++ map (EvRead block count) statuses /\
      (length statuses <= n)%nat /\
      (statuses <> [] -> rv0 < 0) /\
      Forall (fun r => r < 0) (removelast statuses).
Proof.
  induction n as [|n IH]; intros rv0 buf st st' rv buf' Hrun; simpl in Hrun.
  - inversion Hrun; subst. exists []; simpl. rewrite app_nil_r.
    split; [reflexivity|]. split; [apply Nat.le_0_l|].
    split; [intros Hx; now elim Hx | constructor].
  - destruct (rv0 <? 0) eqn:Hneg.
    + unfold bind in Hrun.
      destruct (blkdev_read_log block count buf buflen st)
        as (r & buf1 & w & Hw).
      rewrite Hw in Hrun. apply IH in Hrun.
      destruct Hrun as (sts & Hlog & Hlen & Hne & Hall).
      simpl in Hlog. apply Z.ltb_lt in Hneg.
      exists (r :: sts). split; [|split; [|split]].
      * rewrite Hlog, <- app_assoc; reflexivity.
      * simpl; lia.
      * intros _; exact Hneg.
      * now apply removelast_cons_negative.
    + inversion Hrun; subst. exists []; simpl. rewrite app_nil_r.
      split; [reflexivity|]. split; [apply Nat.le_0_l|].
    split; [intros Hx; now elim Hx | constructor].
Qed.

(** X17.  The retry loops stop at the first attempt that does not fail: in
    the sequence of statuses of a retried write, and of a retried read,
    every status but the last is negative, and there are at most as many
    attempts as the loop allows. *)
Theorem retry_stops_at_first_success :
  forall (W : Type) (D : BlkDev W) n block count buflen (st : St W),
    (forall buf st' rv,
        retry_write n (-1) block count buf buflen st = (rv, st') ->
        exists statuses,
          log st' = log st ++ map (EvWrite block count buf) statuses /\
          (length statuses <= n)%nat /\
          Forall (fun r => r < 0) (removelast statuses)) /\
    (forall buf st' rv buf',
        retry_read n (-1) block count buf buflen st = ((rv, buf'), st') ->
        exists statuses,
          log st' = log st ++ map (EvRead block count) statuses /\
          (length statuses <= n)%nat /\
          Forall (fun r => r < 0) (removelast statuses)).
Proof.
  intros W D n block count buflen st. split.
  - intros buf st' rv Hrun.
    destruct (retry_write_prefix_fails _ _ _ _ _ _ _ _ _ Hrun)
      as (sts & Hlog & Hlen & _ & Hall).
    now exists sts.
  - intros buf st' rv buf' Hrun.
    destruct (retry_read_prefix_fails _ _ _ _ _ _ _ _ _ _ Hrun)
      as (sts & Hlog & Hlen & _ & Hall).
    now exists sts.
Qed.

Lemma retry_stops_at_first_success_witness :
  let st := Sim.start (Sim.healthy 4) in
  exists statuses,
    log (snd (retry_read (D := Sim.dev 4 4) 3 (-1) 0 4 (repeat x00 4) 4 st))
    = log st ++ map (EvRead 0 4) statuses /\
    (length statuses <= 3)%nat /\
    Forall (fun r => r < 0) (removelast statuses).
Proof.
  intros st.
  apply (proj2 (retry_stops_at_first_success
                  Sim.World (Sim.dev 4 4) 3%nat 0 4 4 st)
               (repeat x00 4) _ 0 (repeat x11 4)).
  now vm_compute.
Defined.

Section Alignment.
Context {W : Type} {D : BlkDev W} {E : Env W}.
Variables (start_block end_block stepping_ buflen_ max_errors_ retries : Z).
Variable (patterns : list (list byte)).

Local Abbreviation body :=
  (loop_body start_block end_block stepping_ buflen_ max_errors_ retries
             patterns).
Local Abbreviation loop :=
  (while_loop start_block end_block stepping_ buflen_ max_errors_ retries
              patterns).

(** The events of one pass are snapshots and calls on the batch at the
    cursor. *)
Lemma loop_body_events (P : Event -> Prop) v (st : St W) :
  (forall a b c d, P (EvPrint a b c d)) ->
  (forall e, call_at (lv_block v) stepping_ e -> P e) ->
  exists n, appends P n st (snd (body v st)).
Proof.
  intros Hprint Hcall.
  destruct (signaled_to_exit (world st)) eqn:Hs.
  - rewrite loop_body_stop by exact Hs. exists O. apply appends_refl.
  - assert (Ht : appends P 1 st
                         (snd (poll_timer start_block end_block v st))).
    { unfold poll_timer, bind, lift, poke, Info_print, emit, ret.
      destruct (signals_dec_SIGALRM (world st)) as [[|] w]; cbn [snd].
      - eexists [_]; cbn [log]; repeat split; auto.
      - exists []; cbn [log]; rewrite app_nil_r; repeat split; auto. }
    pose proof (burn_block_calls stepping_ (lv_block v) (lv_buf v) buflen_
                  (u64 retries) patterns
                  (snd (poll_timer start_block end_block v st))) as Hc.
    destruct (burn_block stepping_ (lv_block v) (lv_buf v) buflen_
                (u64 retries) patterns
                (snd (poll_timer start_block end_block v st)))
      as [[rv buf] st2] eqn:Hb.
    cbn [snd] in Hc. apply (appends_impl _ P _ _ _ Hcall) in Hc.
    pose proof (appends_trans _ _ _ _ _ _ Ht Hc) as H12.
    rewrite (loop_body_run _ _ _ _ _ _ _ v st st2 rv buf Hs Hb); cbv zeta.
    destruct (rv >=? 0); [eexists; exact H12|].
    destruct (rv =? - EINVAL); [eexists; exact H12|].
    eexists. destruct (Z.of_nat _ >? max_errors_); cbn [snd];
      (eapply appends_trans; [exact H12|]);
      (eexists [_]; cbn [log]; repeat split;
       [constructor; [apply Hprint | constructor] | apply Nat.le_refl]).
Qed.

Lemma loop_body_on_grid v (st : St W) :
  0 < stepping_ -> end_block <= logical_block_count ->
  logical_block_count < 2 ^ 64 ->
  lv_block v < end_block -> on_grid end_block stepping_ v ->
  on_grid end_block stepping_ (flow_vars (fst (body v st))).
Proof.
  intros Hpos Hend Hcnt Hlt Hgrid.
  destruct Hgrid as [(k & Hk & Hb)|Hover]; [|lia].
  destruct (signaled_to_exit (world st)) eqn:Hs.
  - rewrite loop_body_stop by exact Hs. left. now exists k.
  - unfold on_grid. rewrite (loop_body_cursor _ _ _ _ _ _ _ v st Hs).
    assert (Hb0 : 0 <= lv_block v) by nia.
    unfold trim_stepping.
    destruct (lv_block v >? logical_block_count) eqn:Hp; [lia|].
    rewrite u64_small by (pow64; lia).
    destruct (Z.min_spec (logical_block_count - lv_block v) stepping_)
      as [[Hm ->]|[Hm ->]].
    + right. lia.
    + left. exists (k + 1). split; [lia|]. rewrite Hb. ring.
Qed.

Lemma while_loop_aligned fuel :
  0 < stepping_ -> end_block <= logical_block_count ->
  logical_block_count < 2 ^ 64 ->
  forall v (st : St W),
    on_grid end_block stepping_ v ->
    exists n, appends (call_aligned stepping_) n st (snd (loop fuel v st)).
Proof.
  intros Hpos Hend Hcnt.
  induction fuel as [|fuel IH]; intros v st Hgrid;
    destruct (lv_block v <? end_block) eqn:Hc;
    try (rewrite while_loop_done by exact Hc; exists O; apply appends_refl).
  - simpl. rewrite Hc. exists O; apply appends_refl.
  - rewrite while_loop_step by exact Hc. apply Z.ltb_lt in Hc.
    destruct (loop_body_events (call_aligned stepping_) v st) as [n1 H1].
    { intros; exact I. }
    { destruct Hgrid as [(k & Hk & Hb)|Hover]; [|lia].
      intros [b c r|b c bf r|? ? ? ?]; cbn; intros Hx;
        try contradiction; destruct Hx; subst; now exists k. }
    pose proof (loop_body_on_grid v st Hpos Hend Hcnt Hc Hgrid) as Hg.
    destruct (body v st) as [[v1|v1] st1]; cbn [fst snd flow_vars] in *.
    + destruct (IH v1 st1 Hg) as [n2 H2].
      exists (n1 + n2)%nat. eapply appends_trans; eassumption.
    + now exists n1.
Qed.
End Alignment.


(** X18.  Every batch that [burnin] tests starts at a multiple of the
    stepping: with a positive stepping, a start block that fits 64 bits and
    a block count below 2^64, each device call of the run begins at
    [k * stepping] for some [k >= 0]. *)
Theorem burnin_batches_are_aligned :
  forall (W : Type) (D : BlkDev W) (E : Env W) fuel opts badblocks buf0 rv0
         (st : St W),
    0 < burnin_stepping W opts ->
    0 <= opt_start_block opts < 2 ^ 64 ->
    logical_block_count < 2 ^ 64 ->
    exists evs,
      log (snd (burnin_dev fuel opts badblocks buf0 rv0 st)) = log st ++ evs /\
      Forall (call_aligned (burnin_stepping W opts)) evs.
Proof.
  intros W D E fuel opts badblocks buf0 rv0 st Hs Hstart Hcnt.
  rewrite burnin_dev_unfold, burnin_loop_unfold.
  set (s := burnin_stepping W opts) in *.
  set (st0 := mkSt _ (_ ++ [_])).
  destruct (while_loop_aligned
              (burnin_start_block W opts) (burnin_end_block W opts) s
              (u64 (s * logical_block_size)) (opt_max_errors opts)
              (opt_retries opts) (make_patterns (u64 (s * logical_block_size)))
              fuel Hs (Z.le_min_r _ _) Hcnt
              (mkLV (burnin_start_block W opts) rv0 buf0 badblocks) st0)
    as [n (evs & Hlog & Hall & _)].
  { left. exists (opt_start_block opts / s). cbn [lv_block].
    destruct (round_down_spec (opt_start_block opts) s Hs Hstart) as [Hrd _].
    split; [apply Z.div_pos; lia | exact Hrd]. }
  destruct (while_loop _ _ _ _ _ _ _ fuel _ st0) as [[v1|] st1];
    cbn [fst snd] in *.
  - eexists. split.
    + cbn [log]. rewrite Hlog. unfold st0; cbn [log].
      rewrite <- !app_assoc. reflexivity.
    + constructor; [exact I|]. apply Forall_app. split; [exact Hall|].
      constructor; [exact I | constructor].
  - eexists. split.
    + rewrite Hlog. unfold st0; cbn [log]. rewrite <- app_assoc. reflexivity.
    + constructor; [exact I | exact Hall].
Qed.

Lemma burnin_batches_are_aligned_witness :
  let opts := Sim.options 150 250 0 2 5 in
  exists evs,
    log (snd (burnin_dev (D := Sim.dev 1000 100) (E := Sim.env) 10 opts []
                         (repeat x00 100) 0 (Sim.start (Sim.healthy 1000))))
    = log (Sim.start (Sim.healthy 1000)) ++ evs /\
    Forall (call_aligned 100) evs.
Proof.
  intros opts.
  apply (burnin_batches_are_aligned
           Sim.World (Sim.dev 1000 100) Sim.env 10%nat opts []
           (repeat x00 100) 0 (Sim.start (Sim.healthy 1000))).
  - reflexivity.
  - split; [discriminate | reflexivity].
  - reflexivity.
Defined.
